(** * The reverse WebSocket server of philia: listeners, dispatch and API calls

    A shallow embedding of [src/lib/ws-reverse/server.ts] (class [Server]):
    the listener registry ([on], [off]), the ['message'] handler installed on
    an accepted connection, [getEventDetail], and [callApi] with the
    per-call handler it attaches to the connection.

    What belongs to the JavaScript runtime and to the [ws] package is modelled
    as far as the code observes it:
    - a parsed JSON document is a [value]; a received frame is represented by
      what [JSON.parse] makes of its text (a [SyntaxError] or a [value]);
    - exceptions are explicit: every operation returns a [completion];
    - the ['message'] listeners of a socket are an ordered list, [emit] calls
      a snapshot of that list in order and stops at the first exception;
    - a promise is a cell that is settled at most once;
    - a registered callback is known by its identity; of its body only two
      things are observed: that it was called with an event, and whether the
      call returned or threw.  Callbacks are taken not to re-enter the server
      and not to mutate the event they receive. *)

From Stdlib Require Import ZArith DecimalString DecimalZ.
From stdpp Require Import base option list strings gmap fin_maps.

Local Open Scope string_scope.
Local Open Scope list_scope.
Local Set Warnings "-register-all".

(** ** JavaScript values and completions *)

(** The values [JSON.parse] produces, plus [undefined] (the result of reading
    an absent property).  A number is carried by its [Number::toString]
    rendering, which is all the code can observe of it. *)
Inductive value : Type :=
| VUndefined
| VNull
| VBool (b : bool)
| VNum (repr : string)
| VStr (s : string)
| VArr (items : list value)
| VObj (props : list (string * value)).

(** Identity of a listener function. *)
Definition callback := nat.

Inductive exn : Type :=
| SyntaxError
| TypeError
| Thrown (by_listener : callback).

Inductive completion (A : Type) : Type :=
| Normal (a : A)
| Throw (e : exn).
Arguments Normal {A} a.
Arguments Throw {A} e.

Definition cbind {A B} (c : completion A) (k : A -> completion B) : completion B :=
  match c with
  | Normal a => k a
  | Throw e => Throw e
  end.

(** Own property of a parsed object, first binding of the key. *)
Fixpoint own (k : string) (props : list (string * value)) : option value :=
  match props with
  | [] => None
  | (k', v) :: rest => if String.eqb k k' then Some v else own k rest
  end.

(** [v.k] for the property names the server reads ([post_type], the four
    discriminators, [echo], [status], [data], [message]): none of them is a
    built-in property of arrays, strings, numbers or booleans, so only an
    object can answer with something else than [undefined]; reading from
    [null] or [undefined] is a [TypeError]. *)
Definition prop (k : string) (v : value) : completion value :=
  match v with
  | VUndefined | VNull => Throw TypeError
  | VObj props => Normal (default VUndefined (own k props))
  | _ => Normal VUndefined
  end.

(** ['k' in v], for the same property names: a [TypeError] unless [v] is an
    object or an array. *)
Definition has_in (k : string) (v : value) : completion bool :=
  match v with
  | VObj props => Normal (bool_decide (is_Some (own k props)))
  | VArr _ => Normal false
  | _ => Throw TypeError
  end.

(** [ToString], as a template literal and [new Error(_)] apply it.  An array
    joins its elements with commas ([null] and [undefined] print as nothing);
    a plain object prints as [[object Object]] unless it has an own
    [toString] property, which after [JSON.parse] is never callable and makes
    the conversion a [TypeError]. *)
Fixpoint ToString (v : value) : completion string :=
  match v with
  | VUndefined => Normal "undefined"
  | VNull => Normal "null"
  | VBool true => Normal "true"
  | VBool false => Normal "false"
  | VNum repr => Normal repr
  | VStr s => Normal s
  | VArr items =>
      (fix join (l : list value) : completion string :=
         match l with
         | [] => Normal ""
         | x :: l' =>
             let head :=
               match x with
               | VUndefined | VNull => Normal ""
               | _ => ToString x
               end in
             match l' with
             | [] => head
             | _ => cbind head (fun s =>
                    cbind (join l') (fun r => Normal (s +:+ "," +:+ r)))
             end
         end) items
  | VObj props =>
      match own "toString" props with
      | Some _ => Throw TypeError
      | None => Normal "[object Object]"
      end
  end.

(** [ToBoolean]: the operand test of [||]. *)
Definition truthy (v : value) : bool :=
  match v with
  | VUndefined | VNull => false
  | VBool b => b
  | VNum repr => negb (String.eqb repr "0" || String.eqb repr "NaN")
  | VStr s => negb (String.eqb s "")
  | VArr _ | VObj _ => true
  end.

(** [v === s] for a string [s]. *)
Definition is_string (s : string) (v : value) : bool :=
  match v with
  | VStr s' => String.eqb s' s
  | _ => false
  end.

(** [Date.now().toString()]: the clock reading is an integer number of
    milliseconds, printed in plain decimal. *)
Definition Date_now_toString (now : Z) : string :=
  NilZero.string_of_int (Z.to_int now).

(** ** [getEventDetail] *)

Definition getEventDetail (event : value) : completion value :=
  cbind (has_in "message_type" event) (fun b =>
  if b then prop "message_type" event else
  cbind (has_in "request_type" event) (fun b =>
  if b then prop "request_type" event else
  cbind (has_in "notice_type" event) (fun b =>
  if b then prop "notice_type" event else
  cbind (has_in "meta_event_type" event) (fun b =>
  if b then prop "meta_event_type" event else
  Normal (VStr ""))))).

(** The key of the template literal
    [`${event.post_type}.${this.getEventDetail(event)}`]. *)
Definition type_of (event : value) : completion string :=
  cbind (prop "post_type" event) (fun p =>
  cbind (ToString p) (fun ps =>
  cbind (getEventDetail event) (fun d =>
  cbind (ToString d) (fun ds =>
  Normal (ps +:+ "." +:+ ds))))).

(** ** The state the server works on *)

(** The object [callApi] serialises and sends. *)
Record payload : Type := { action : string; params : value; echo : string }.

(** The promise returned by [callApi]. *)
Inductive promise : Type :=
| Pending
| Fulfilled (data : value)
| Rejected (message : string).

(** A received frame, by what [JSON.parse(data.toString())] makes of it. *)
Inductive frame : Type :=
| Malformed
| Json (document : value).

(** The functions registered with [ws.on('message', _)]: the one [init]
    installs on an accepted connection, and the closure [handler] of one
    [callApi] call, which captures [echo] and its promise. *)
Inductive ws_listener : Type :=
| Dispatcher
| CallHandler (echo : string) (p : nat).

Global Instance ws_listener_eq_dec : EqDecision ws_listener.
Proof. solve_decision. Defined.

(** A socket, by its ['message'] listeners in the order of registration. *)
Record WebSocket : Type := { on_message : list ws_listener }.

(** [listeners] is the [Map] of the class; [clients] is [wss.clients], which
    holds at most the one accepted socket; [sent] are the payloads given to
    [ws.send], oldest first; [promises] are the promises handed out so far;
    [trace] records the listener calls made, oldest first. *)
Record world : Type := {
  listeners : gmap string (list callback);
  clients : option WebSocket;
  sent : list payload;
  promises : list promise;
  trace : list (callback * value)
}.

Definition set_listeners (f : gmap string (list callback) -> gmap string (list callback))
    (w : world) : world :=
  {| listeners := f (listeners w); clients := clients w; sent := sent w;
     promises := promises w; trace := trace w |}.

Definition set_clients (c : option WebSocket) (w : world) : world :=
  {| listeners := listeners w; clients := c; sent := sent w;
     promises := promises w; trace := trace w |}.

Definition set_sent (f : list payload -> list payload) (w : world) : world :=
  {| listeners := listeners w; clients := clients w; sent := f (sent w);
     promises := promises w; trace := trace w |}.

Definition set_promises (f : list promise -> list promise) (w : world) : world :=
  {| listeners := listeners w; clients := clients w; sent := sent w;
     promises := f (promises w); trace := trace w |}.

Definition set_trace (f : list (callback * value) -> list (callback * value))
    (w : world) : world :=
  {| listeners := listeners w; clients := clients w; sent := sent w;
     promises := promises w; trace := f (trace w) |}.

(** The server once constructed and listening ([init] has created [wss]),
    before any client connects. *)
Definition new_Server : world :=
  {| listeners := ∅; clients := None; sent := []; promises := []; trace := [] |}.

(** Computations that read and update the [world] and may throw; what was
    done before a throw stays done. *)
Definition M (A : Type) : Type := world -> world * completion A.

Definition ret {A} (a : A) : M A := fun w => (w, Normal a).

Definition bind {A B} (m : M A) (k : A -> M B) : M B :=
  fun w => match m w with
           | (w', Normal a) => k a w'
           | (w', Throw e) => (w', Throw e)
           end.

Definition lift {A} (c : completion A) : M A := fun w => (w, c).
Definition gets {A} (f : world -> A) : M A := fun w => (w, Normal (f w)).
Definition modify (f : world -> world) : M unit := fun w => (f w, Normal tt).

Notation "'let!' x := m 'in' k" := (bind m (fun x => k))
  (at level 10, x name, m at level 100, k at level 200).
Notation "m >> k" := (bind m (fun _ => k))
  (at level 65, right associativity).

(** ** Promises *)

(** [resolve] and [reject] settle a pending promise and do nothing to a
    settled one. *)
Definition settle (p : nat) (outcome : promise) (w : world) : world :=
  match promises w !! p with
  | Some Pending => set_promises (fun ps => <[p := outcome]> ps) w
  | _ => w
  end.

Definition resolve (p : nat) (data : value) : world -> world := settle p (Fulfilled data).
Definition reject (p : nat) (message : string) : world -> world := settle p (Rejected message).

(** ** [on] and [off] *)

(** The two overloads of [on]: with an event type, or with the listener
    alone, which registers under ["*"]. *)
Inductive on_args : Type :=
| OnType (type : string) (listener : callback)
| OnAll (listener : callback).

Definition on_key (a : on_args) : string :=
  match a with OnType type _ => type | OnAll _ => "*" end.

Definition on_callback (a : on_args) : callback :=
  match a with OnType _ listener => listener | OnAll listener => listener end.

Definition on (a : on_args) (w : world) : world :=
  set_listeners
    (fun m => <[on_key a := default [] (m !! on_key a) ++ [on_callback a]]> m) w.

(** [Array.prototype.indexOf]; [None] stands for [-1]. *)
Fixpoint indexOf (x : callback) (l : list callback) : option nat :=
  match l with
  | [] => None
  | y :: l' => if decide (y = x) then Some 0 else S <$> indexOf x l'
  end.

(** One round of the loop of [off] on the array stored under a key:
    [None] when the key is deleted. *)
Definition off_entry (listener : callback) (l : list callback) : option (list callback) :=
  match indexOf listener l with
  | None => Some l
  | Some index =>
      match delete index l with
      | [] => None
      | l' => Some l'
      end
  end.

Definition off (listener : callback) (w : world) : world :=
  set_listeners (omap (off_entry listener)) w.

(** ** Connections *)

(** The ['connection'] handler of [init]: a socket is accepted, and gets the
    dispatching ['message'] handler, only when no other client is there;
    otherwise it is closed at once and the server is as before. *)
Definition connection (w : world) : world :=
  match clients w with
  | None => set_clients (Some {| on_message := [Dispatcher] |}) w
  | Some _ => w
  end.

(** The accepted socket closes: it leaves [wss.clients], with the handlers
    attached to it. *)
Definition close (w : world) : world := set_clients None w.

(** ** [callApi] *)

Definition no_clients_message : string := "No WebSocket clients connected".
Definition call_failed_message : string := "API call failed".

(** [callApi] at clock reading [now]; returns the new promise. *)
Definition callApi (now : Z) (action : string) (params : value) (w : world)
    : world * nat :=
  let echo := Date_now_toString now in
  let payload := {| action := action; params := params; echo := echo |} in
  let p := length (promises w) in
  let w := set_promises (fun ps => ps ++ [Pending]) w in
  match clients w with
  | None => (reject p no_clients_message w, p)
  | Some ws =>
      let w := set_clients
                 (Some {| on_message := on_message ws ++ [CallHandler echo p] |}) w in
      (set_sent (fun out => out ++ [payload]) w, p)
  end.

(** [removeListener]: drops the most recently added instance, if any. *)
Fixpoint remove_first (h : ws_listener) (l : list ws_listener) : list ws_listener :=
  match l with
  | [] => []
  | h' :: l' => if decide (h' = h) then l' else h' :: remove_first h l'
  end.

Definition remove_last (h : ws_listener) (l : list ws_listener) : list ws_listener :=
  reverse (remove_first h (reverse l)).

Definition ws_off (h : ws_listener) (w : world) : world :=
  match clients w with
  | None => w
  | Some ws =>
      set_clients (Some {| on_message := remove_last h (on_message ws) |}) w
  end.

Definition JSON_parse (data : frame) : M value :=
  match data with
  | Malformed => lift (Throw SyntaxError)
  | Json document => ret document
  end.

(** The closure [handler] of a call with token [echo] and promise [p]. *)
Definition handler (echo : string) (p : nat) (data : frame) : M unit :=
  let! response := JSON_parse data in
  let! e := lift (prop "echo" response) in
  if is_string echo e then
    modify (ws_off (CallHandler echo p)) >>
    let! status := lift (prop "status" response) in
    if is_string "ok" status then
      let! d := lift (prop "data" response) in
      modify (resolve p d)
    else
      let! m := lift (prop "message" response) in
      let! text := lift (if truthy m then ToString m else Normal call_failed_message) in
      modify (reject p text)
  else ret tt.

(** What the handler of a matching call does with its promise, read off the
    branches of [handler]: [resolve(response.data)] when the status is
    ["ok"], [reject(new Error(response.message || 'API call failed'))]
    otherwise. *)
Definition settlement (response : value) : completion promise :=
  cbind (prop "status" response) (fun status =>
  if is_string "ok" status then
    cbind (prop "data" response) (fun d => Normal (Fulfilled d))
  else
    cbind (prop "message" response) (fun m =>
    cbind (if truthy m then ToString m else Normal call_failed_message) (fun text =>
    Normal (Rejected text)))).

(** ** Dispatch to listeners *)

Section Listeners.

(** Whether the listener with this identity throws when called with this
    event. *)
Variable throws : callback -> value -> bool.

Definition invoke (listener : callback) (event : value) : M unit :=
  modify (set_trace (fun t => t ++ [(listener, event)])) >>
  if throws listener event then lift (Throw (Thrown listener)) else ret tt.

Fixpoint for_of (ls : list callback) (event : value) : M unit :=
  match ls with
  | [] => ret tt
  | listener :: ls' => invoke listener event >> for_of ls' event
  end.

Definition registered (key : string) (w : world) : list callback :=
  default [] (listeners w !! key).

(** The ['message'] handler installed by [init]. *)
Definition message_handler (data : frame) : M unit :=
  let! event := JSON_parse data in
  let! generalListeners := gets (registered "*") in
  for_of generalListeners event >>
  let! type := lift (type_of event) in
  let! typeListeners := gets (registered type) in
  for_of typeListeners event.

Definition run_handler (h : ws_listener) (data : frame) : M unit :=
  match h with
  | Dispatcher => message_handler data
  | CallHandler echo p => handler echo p data
  end.

(** [emit('message', data)]: the handlers registered when the frame arrives
    are called in order; an exception ends the emit. *)
Fixpoint emit (hs : list ws_listener) (data : frame) : M unit :=
  match hs with
  | [] => ret tt
  | h :: hs' => run_handler h data >> emit hs' data
  end.

(** A frame arrives on the accepted socket. *)
Definition receive (data : frame) : M unit :=
  fun w => match clients w with
           | None => (w, Normal tt)
           | Some ws => emit (on_message ws) data w
           end.

End Listeners.

(** ** Reachable states and their invariant *)

(** The states the server can be in: built from the constructor by
    registrations, connection events, calls and received frames. *)
Inductive reachable (throws : callback -> value -> bool) : world -> Prop :=
| reach_new : reachable throws new_Server
| reach_on a w : reachable throws w -> reachable throws (on a w)
| reach_off listener w : reachable throws w -> reachable throws (off listener w)
| reach_connection w : reachable throws w -> reachable throws (connection w)
| reach_close w : reachable throws w -> reachable throws (close w)
| reach_callApi now action params w :
    reachable throws w -> reachable throws (fst (callApi now action params w))
| reach_receive data w :
    reachable throws w -> reachable throws (fst (receive throws data w)).

(** The handler of the call with token [c.1] and promise [c.2]. *)
Definition CH (c : string * nat) : ws_listener := CallHandler c.1 c.2.

(** On the accepted socket the dispatching handler comes first, followed by
    the handlers of the calls still waiting; these have distinct promises,
    all pending. *)
Definition inv (w : world) : Prop :=
  forall ws, clients w = Some ws ->
    exists calls : list (string * nat),
      on_message ws = Dispatcher :: map CH calls /\
      NoDup calls.*2 /\
      forall c, c ∈ calls -> promises w !! c.2 = Some Pending.

(** The invariant inside [emit]: the handlers [rest] of the snapshot that are
    still to run are distinct and still registered. *)
Definition waiting (rest : list (string * nat)) (w : world) : Prop :=
  exists calls : list (string * nat),
    clients w = Some {| on_message := Dispatcher :: map CH calls |} /\
    NoDup calls.*2 /\
    (forall c, c ∈ calls -> promises w !! c.2 = Some Pending) /\
    NoDup rest /\ rest ⊆ calls.

(** The listener calls of one [for_of] loop, up to and including the first
    that throws, and how the loop ends. *)
Fixpoint walk (throws : callback -> value -> bool) (ls : list callback) (event : value)
    : list callback * completion unit :=
  match ls with
  | [] => ([], Normal tt)
  | l :: ls' =>
      if throws l event then ([l], Throw (Thrown l))
      else (l :: (walk throws ls' event).1, (walk throws ls' event).2)
  end.

(** The listener calls of [message_handler] on a parsed event, and how it
    ends, as a function of the registry. *)
Definition dispatch (throws : callback -> value -> bool)
    (m : gmap string (list callback)) (event : value)
    : list callback * completion unit :=
  let general := walk throws (default [] (m !! "*")) event in
  match general.2 with
  | Throw e => (general.1, Throw e)
  | Normal _ =>
      match type_of event with
      | Throw e => (general.1, Throw e)
      | Normal type =>
          let typed := walk throws (default [] (m !! type)) event in
          (general.1 ++ typed.1, typed.2)
      end
  end.

(** Whether a handler takes a response whose [echo] is [ev] for its own. *)
Definition answers (ev : value) (h : ws_listener) : bool :=
  match h with
  | Dispatcher => false
  | CallHandler e _ => is_string e ev
  end.

(** Appending to the trace. *)
Definition log (calls : list (callback * value)) (w : world) : world :=
  set_trace (fun t => t ++ calls) w.

(** The effect on the world of the call handlers [rest] running on a
    response whose [echo] is [ev] and whose settlement is [o]. *)
Definition consume_one (ev : value) (o : promise) (w : world) (c : string * nat) : world :=
  if is_string c.1 ev then settle c.2 o (ws_off (CH c) w) else w.

Definition consume (ev : value) (o : promise) (rest : list (string * nat)) (w : world)
    : world :=
  foldl (consume_one ev o) w rest.


(** A sequence of [on] calls, first to last. *)
Definition register_all (regs : list on_args) (w : world) : world :=
  foldl (fun w a => on a w) w regs.

(** The fields [getEventDetail] looks for, in the order of its tests. *)
Definition discriminators : list string :=
  ["message_type"; "request_type"; "notice_type"; "meta_event_type"].

(** How many times a callback stands in an array of listeners. *)
Definition occurrences (x : callback) (l : list callback) : nat :=
  length (filter (fun y => y = x) l).

(** ** Named calls *)

(** [v ?? d]: [d] when [v] is [undefined] or [null]. *)
Definition nullish (v : value) : bool :=
  match v with
  | VUndefined | VNull => true
  | _ => false
  end.

Definition coalesce (v d : value) : value := if nullish v then d else v.

(** [sendMsg] at clock reading [now]: the key of the target is computed from
    [messageType]. *)
Definition sendMsg (now : Z) (messageType : string) (id message autoEscape : value)
    : world -> world * nat :=
  callApi now "send_msg"
    (VObj [("message_type", VStr messageType);
           (if String.eqb messageType "private" then "user_id" else "group_id", id);
           ("message", message);
           ("auto_escape", autoEscape)]).

(** [setGroupBan] at clock reading [now]. *)
Definition setGroupBan (now : Z) (groupId userId duration : value)
    : world -> world * nat :=
  callApi now "set_group_ban"
    (VObj [("group_id", groupId);
           ("user_id", userId);
           ("duration", coalesce duration (VNum "1800"))]).

(** ** What can follow a state *)

(** The states the server can get to from [w0]. *)
Inductive evolves (throws : callback -> value -> bool) (w0 : world) : world -> Prop :=
| evolves_here : evolves throws w0 w0
| evolves_on a w : evolves throws w0 w -> evolves throws w0 (on a w)
| evolves_off listener w : evolves throws w0 w -> evolves throws w0 (off listener w)
| evolves_connection w : evolves throws w0 w -> evolves throws w0 (connection w)
| evolves_close w : evolves throws w0 w -> evolves throws w0 (close w)
| evolves_callApi now action params w :
    evolves throws w0 w -> evolves throws w0 (fst (callApi now action params w))
| evolves_receive data w :
    evolves throws w0 w -> evolves throws w0 (fst (receive throws data w)).

(** A pending promise that no handler on the accepted socket can settle. *)
Definition orphan (p : nat) (w : world) : Prop :=
  promises w !! p = Some Pending /\
  forall ws e, clients w = Some ws -> CallHandler e p ∉ on_message ws.

(** Whether [typeof event] is ["object"] and [event] is not [null]. *)
Definition is_object (event : value) : bool :=
  match event with
  | VArr _ | VObj _ => true
  | _ => false
  end.

(** What a frame leaves alone: the registry, the frames sent, the number of
    promises and every promise already settled; the trace only grows. *)
Definition unchanged_by_frame (w w' : world) : Prop :=
  listeners w' = listeners w /\
  sent w' = sent w /\
  length (promises w') = length (promises w) /\
  (exists t, trace w' = trace w ++ t) /\
  (forall q x, promises w !! q = Some x -> x <> Pending -> promises w' !! q = Some x).


(** ** Sample inputs *)

Definition never_throws : callback -> value -> bool := fun _ _ => false.

(** Only the listener [bad] throws, on every event. *)
Definition throws_only (bad : callback) : callback -> value -> bool :=
  fun l _ => Nat.eqb l bad.

Definition group_message : value :=
  VObj [("post_type", VStr "message"); ("message_type", VStr "group");
        ("group_id", VNum "42"); ("raw_message", VStr "hello")].

Definition ok_response (echo : string) (data : value) : value :=
  VObj [("status", VStr "ok"); ("retcode", VNum "0"); ("data", data);
        ("echo", VStr echo)].

Definition failed_response (echo : string) (message : value) : value :=
  VObj [("status", VStr "failed"); ("retcode", VNum "100"); ("data", VNull);
        ("message", message); ("echo", VStr echo)].


Definition login_info : value :=
  VObj [("user_id", VNum "10001"); ("nickname", VStr "bot")].

(** A server with one accepted client and no listeners. *)
Definition connected_Server : world := connection new_Server.

(** * Properties *)

(** ** Values *)

Example type_of_group_message :
  type_of (VObj [("post_type", VStr "message"); ("message_type", VStr "group")])
  = Normal "message.group".
Proof. reflexivity. Qed.


Lemma to_int_proper (z : Z) :
  Z.to_int z <> Decimal.Pos Decimal.Nil /\ Z.to_int z <> Decimal.Neg Decimal.Nil.
Proof.
  destruct z as [|q|q]; simpl; split; try discriminate;
    intros [= H]; exact (DecimalPos.Unsigned.to_uint_nonnil q H).
Qed.

Lemma Date_now_toString_inj now now' :
  Date_now_toString now = Date_now_toString now' -> now = now'.
Proof.
  unfold Date_now_toString. intros H.
  apply (f_equal NilZero.int_of_string) in H.
  destruct (to_int_proper now) as [Hp Hn].
  destruct (to_int_proper now') as [Hp' Hn'].
  rewrite !NilZero.isi in H by assumption.
  injection H as H. by apply DecimalZ.to_int_inj.
Qed.

(** ** The world *)

Lemma log_log t1 t2 w : log t2 (log t1 w) = log (t1 ++ t2) w.
Proof. unfold log, set_trace. simpl. by rewrite app_assoc. Qed.

Lemma log_nil w : log [] w = w.
Proof. destruct w. unfold log, set_trace. simpl. by rewrite app_nil_r. Qed.

(** ** Listener loops *)

Section Dispatch.

Variable throws : callback -> value -> bool.

Lemma for_of_walk ls event w :
  for_of throws ls event w =
  (log (map (fun l => (l, event)) (walk throws ls event).1) w,
   (walk throws ls event).2).
Proof.
  revert w. induction ls as [|l ls IH]; intros w.
  - simpl. unfold ret. by rewrite log_nil.
  - simpl. unfold bind, invoke, bind, modify.
    destruct (throws l event) eqn:Hl; simpl.
    + reflexivity.
    + unfold ret. rewrite IH.
      change (set_trace _ w) with (log [(l, event)] w).
      by rewrite log_log.
Qed.

Lemma walk_all ls event :
  (forall l, l ∈ ls -> throws l event = false) ->
  walk throws ls event = (ls, Normal tt).
Proof.
  induction ls as [|l ls IH]; intros H; [done|].
  simpl. rewrite (H l) by set_solver.
  rewrite IH by (intros; apply H; set_solver). done.
Qed.

Lemma walk_stops pre l post event :
  (forall l', l' ∈ pre -> throws l' event = false) ->
  throws l event = true ->
  walk throws (pre ++ l :: post) event = (pre ++ [l], Throw (Thrown l)).
Proof.
  induction pre as [|x pre IH]; intros H Hl; simpl.
  - by rewrite Hl.
  - rewrite (H x) by set_solver.
    rewrite IH by (try done; intros; apply H; set_solver). done.
Qed.


Lemma message_handler_json event w :
  message_handler throws (Json event) w =
  (log (map (fun l => (l, event)) (dispatch throws (listeners w) event).1) w,
   (dispatch throws (listeners w) event).2).
Proof.
  unfold message_handler, dispatch, registered, bind, gets, ret, lift. simpl.
  rewrite for_of_walk.
  destruct (walk throws (default [] (listeners w !! "*")) event) as [c1 [[]|e1]]; simpl; [|done].
  destruct (type_of event) as [type|e2]; simpl; [|done].
  rewrite for_of_walk, log_log. simpl. by rewrite map_app.
Qed.


End Dispatch.

(** ** Promises *)

Lemma settle_other_fields p o w :
  listeners (settle p o w) = listeners w /\ clients (settle p o w) = clients w /\
  sent (settle p o w) = sent w /\ trace (settle p o w) = trace w /\
  length (promises (settle p o w)) = length (promises w).
Proof.
  unfold settle. destruct (promises w !! p) as [[]|]; simpl; repeat split.
  by rewrite length_insert.
Qed.

Lemma settle_pending p o w :
  promises w !! p = Some Pending -> promises (settle p o w) !! p = Some o.
Proof.
  intros H. unfold settle. rewrite H. simpl.
  apply list_lookup_insert_eq. by eapply lookup_lt_Some.
Qed.

Lemma settle_lookup_ne p q o w :
  p <> q -> promises (settle p o w) !! q = promises w !! q.
Proof.
  intros H. unfold settle. destruct (promises w !! p) as [[]|]; simpl; try done.
  by apply list_lookup_insert_ne.
Qed.

(** ** The ['message'] listeners of the socket *)

Lemma remove_first_NoDup h l :
  NoDup l -> remove_first h l = filter (fun x => x <> h) l.
Proof.
  induction 1 as [|x l Hx Hl IH]; [done|]. simpl.
  destruct (decide (x = h)) as [->|Hne].
  - rewrite filter_cons_False by (intros ?; done).
    clear IH Hl. induction l as [|y l IH]; [done|].
    rewrite filter_cons_True; [f_equal; apply IH|]; set_solver.
  - rewrite filter_cons_True by done. by rewrite IH.
Qed.

Lemma remove_last_NoDup h l :
  NoDup l -> remove_last h l = filter (fun x => x <> h) l.
Proof.
  intros H. unfold remove_last.
  rewrite remove_first_NoDup by by rewrite reverse_Permutation.
  by rewrite filter_reverse, reverse_involutive.
Qed.

Global Instance CH_inj : Inj (=) (=) CH.
Proof. intros [e p] [e' p']. unfold CH. simpl. by intros [= -> ->]. Qed.

Lemma handlers_NoDup (calls : list (string * nat)) :
  NoDup calls.*2 -> NoDup (Dispatcher :: map CH calls).
Proof.
  intros H. apply NoDup_cons. split.
  - intros (c & Hc & _)%list_elem_of_fmap. discriminate.
  - apply (NoDup_fmap_2 CH). by apply NoDup_fmap_1 in H.
Qed.

Lemma filter_handlers c (calls : list (string * nat)) :
  filter (fun h => h <> CH c) (Dispatcher :: map CH calls)
  = Dispatcher :: map CH (filter (fun x => x <> c) calls).
Proof.
  rewrite filter_cons_True by done. f_equal.
  induction calls as [|x calls IH]; [done|]. simpl.
  destruct (decide (x = c)) as [->|Hne].
  - rewrite !filter_cons_False by (intros ?; done). apply IH.
  - rewrite !filter_cons_True; [|done|intros ?%(inj CH); done].
    simpl. by rewrite IH.
Qed.

Lemma ws_off_other_fields h w :
  listeners (ws_off h w) = listeners w /\ sent (ws_off h w) = sent w /\
  promises (ws_off h w) = promises w /\ trace (ws_off h w) = trace w.
Proof. unfold ws_off. by destruct (clients w). Qed.

Lemma ws_off_call c calls w :
  clients w = Some {| on_message := Dispatcher :: map CH calls |} ->
  NoDup calls.*2 ->
  clients (ws_off (CH c) w)
  = Some {| on_message := Dispatcher :: map CH (filter (fun x => x <> c) calls) |}.
Proof.
  intros Hw Hnd. unfold ws_off. rewrite Hw. simpl.
  rewrite remove_last_NoDup by by apply handlers_NoDup.
  by rewrite filter_handlers.
Qed.

Lemma NoDup_snd_inj (l : list (string * nat)) x y :
  NoDup l.*2 -> x ∈ l -> y ∈ l -> x.2 = y.2 -> x = y.
Proof.
  induction l as [|z l IH]; simpl; intros Hnd Hx Hy Heq.
  - by apply elem_of_nil in Hx.
  - apply NoDup_cons in Hnd as [Hz Hnd].
    apply elem_of_cons in Hx as [->|Hx]; apply elem_of_cons in Hy as [->|Hy].
    + done.
    + exfalso. apply Hz. rewrite Heq. by apply list_elem_of_fmap_2.
    + exfalso. apply Hz. rewrite <- Heq. by apply list_elem_of_fmap_2.
    + by apply IH.
Qed.

Lemma NoDup_snd_filter (P : string * nat -> Prop) `{!forall x, Decision (P x)}
    (l : list (string * nat)) :
  NoDup l.*2 -> NoDup (filter P l).*2.
Proof.
  intros Hnd. apply NoDup_fmap_2_strong.
  - intros x y [_ Hx]%list_elem_of_filter [_ Hy]%list_elem_of_filter.
    by apply (NoDup_snd_inj l).
  - apply NoDup_filter. by apply (NoDup_fmap_1 snd).
Qed.

(** ** The handler of a call *)

Lemma handler_json e p response w :
  handler e p (Json response) w =
  match prop "echo" response with
  | Throw x => (w, Throw x)
  | Normal ev =>
      if is_string e ev then
        match settlement response with
        | Normal o => (settle p o (ws_off (CallHandler e p) w), Normal tt)
        | Throw x => (ws_off (CallHandler e p) w, Throw x)
        end
      else (w, Normal tt)
  end.
Proof.
  unfold handler, settlement, bind, lift, ret, modify, resolve, reject. simpl.
  destruct (prop "echo" response) as [ev|]; simpl; [|done].
  destruct (is_string e ev); simpl; [|done].
  destruct (prop "status" response) as [st|]; simpl; [|done].
  destruct (is_string "ok" st); simpl.
  - by destruct (prop "data" response).
  - destruct (prop "message" response) as [m|]; simpl; [|done].
    destruct (truthy m); simpl; [|done].
    by destruct (ToString m).
Qed.

Lemma handler_cases e p data w :
  (handler e p data w).1 = w \/
  (handler e p data w).1 = ws_off (CallHandler e p) w \/
  exists o, (handler e p data w).1 = settle p o (ws_off (CallHandler e p) w).
Proof.
  destruct data as [|response]; [by left|].
  rewrite handler_json.
  destruct (prop "echo" response) as [ev|]; [|by left].
  destruct (is_string e ev); [|by left].
  destruct (settlement response) as [o|]; [right; right; by exists o|right; by left].
Qed.

(** ** The invariant *)

Lemma waiting_inv rest w : waiting rest w -> inv w.
Proof.
  intros (calls & Hw & Hnd & Hp & _) ws Hws.
  rewrite Hw in Hws. injection Hws as <-. by exists calls.
Qed.

Lemma inv_waiting w ws :
  inv w -> clients w = Some ws ->
  exists calls, on_message ws = Dispatcher :: map CH calls /\ waiting calls w.
Proof.
  intros Hinv Hws. destruct (Hinv ws Hws) as (calls & Hon & Hnd & Hp).
  exists calls. split; [done|]. exists calls. repeat split; try done.
  - rewrite Hws. destruct ws; simpl in *; by subst.
  - by apply NoDup_fmap_1 in Hnd.
Qed.

Lemma waiting_same rest w w' :
  clients w' = clients w -> promises w' = promises w ->
  waiting rest w -> waiting rest w'.
Proof.
  intros Hc Hp (calls & ? & ? & ? & ? & ?). exists calls.
  rewrite Hc, Hp. done.
Qed.

Lemma waiting_tail c rest w : waiting (c :: rest) w -> waiting rest w.
Proof.
  intros (calls & Hw & Hnd & Hp & Hr & Hsub). exists calls.
  apply NoDup_cons in Hr as [_ Hr]. repeat split; try done.
  intros x Hx. apply Hsub. by right.
Qed.

Lemma waiting_off c rest w :
  waiting (c :: rest) w -> waiting rest (ws_off (CH c) w).
Proof.
  intros (calls & Hw & Hnd & Hp & Hr & Hsub).
  exists (filter (fun x => x <> c) calls).
  apply NoDup_cons in Hr as [Hc Hr].
  destruct (ws_off_other_fields (CH c) w) as (_ & _ & Hprom & _).
  repeat split; try done.
  - by apply ws_off_call.
  - by apply NoDup_snd_filter.
  - intros x [_ Hx]%list_elem_of_filter. rewrite Hprom. by apply Hp.
  - intros x Hx. apply list_elem_of_filter. split.
    + intros ->. done.
    + apply Hsub. by right.
Qed.

Lemma waiting_settle c o rest w :
  waiting (c :: rest) w -> waiting rest (settle c.2 o (ws_off (CH c) w)).
Proof.
  intros Hw. pose proof (waiting_off _ _ _ Hw) as (calls1 & Hw1 & Hnd1 & Hp1 & Hr & Hsub).
  destruct Hw as (calls & Hw & Hnd & Hp & Hr0 & Hsub0).
  rewrite (ws_off_call c calls w Hw Hnd) in Hw1. injection Hw1 as Hcalls1.
  apply (inj (fmap CH)) in Hcalls1. subst calls1.
  destruct (settle_other_fields c.2 o (ws_off (CH c) w)) as (_ & Hcl & _).
  exists (filter (fun x => x <> c) calls). repeat split; try done.
  - rewrite Hcl. by apply ws_off_call.
  - intros x Hx. rewrite settle_lookup_ne; [by apply Hp1|].
    apply list_elem_of_filter in Hx as [Hne Hx]. intros Heq. apply Hne.
    apply (NoDup_snd_inj calls); try done. apply Hsub0. by left.
Qed.

Section Invariant.

Variable throws : callback -> value -> bool.

Lemma waiting_step c rest data w :
  waiting (c :: rest) w -> waiting rest (handler c.1 c.2 data w).1.
Proof.
  intros Hw. destruct (handler_cases c.1 c.2 data w) as [->|[->|[o ->]]].
  - by eapply waiting_tail.
  - by apply waiting_off.
  - by apply waiting_settle.
Qed.

Lemma emit_calls_inv rest data w :
  waiting rest w -> inv (emit throws (map CH rest) data w).1.
Proof.
  revert w. induction rest as [|c rest IH]; intros w Hw.
  - by eapply waiting_inv.
  - simpl. unfold bind.
    pose proof (waiting_step c rest data w Hw) as Hstep.
    destruct (handler c.1 c.2 data w) as [w1 [[]|x]]; simpl in *.
    + by apply IH.
    + by eapply waiting_inv.
Qed.

Lemma message_handler_logs data w :
  exists t, (message_handler throws data w).1 = log t w.
Proof.
  destruct data as [|event].
  - exists []. by rewrite log_nil.
  - rewrite message_handler_json. eauto.
Qed.

Lemma receive_inv data w : inv w -> inv (receive throws data w).1.
Proof.
  intros Hinv. unfold receive.
  destruct (clients w) as [ws|] eqn:Hws; [|done].
  destruct (inv_waiting w ws Hinv Hws) as (calls & -> & Hw).
  simpl. unfold bind.
  destruct (message_handler_logs data w) as [t Ht].
  destruct (message_handler throws data w) as [w1 [[]|x]]; simpl in *; subst w1.
  - apply emit_calls_inv. by eapply waiting_same.
  - eapply waiting_inv, waiting_same; [| |exact Hw]; done.
Qed.

Lemma callApi_inv now action params w :
  inv w -> inv (callApi now action params w).1.
Proof.
  intros Hinv. unfold callApi. simpl.
  destruct (clients w) as [ws|] eqn:Hws; simpl.
  - intros ws' [= <-]. destruct (Hinv ws Hws) as (calls & Hon & Hnd & Hp).
    exists (calls ++ [(Date_now_toString now, length (promises w))]).
    simpl. repeat split.
    + by rewrite Hon, map_app.
    + rewrite fmap_app. apply NoDup_app. repeat split; [done| |apply NoDup_singleton].
      intros q (c & Hq & Hc)%list_elem_of_fmap Hq'. simpl in Hq'.
      apply list_elem_of_singleton in Hq'.
      apply Hp, lookup_lt_Some in Hc. lia.
    + intros c [Hc| ->%list_elem_of_singleton]%elem_of_app.
      * rewrite lookup_app_l; [by apply Hp|]. by eapply lookup_lt_Some, Hp.
      * simpl. by rewrite list_lookup_middle.
  - intros ws'. destruct (settle_other_fields (length (promises w)) (Rejected no_clients_message)
      (set_promises (fun ps => ps ++ [Pending]) w)) as (_ & Hcl & _).
    unfold reject. rewrite Hcl. simpl. by rewrite Hws.
Qed.

(** Every reachable state satisfies the invariant. *)
Lemma reachable_inv w : reachable throws w -> inv w.
Proof.
  induction 1 as [|a w _ IH|l w _ IH|w _ IH|w _ IH|now action params w _ IH|data w _ IH].
  - intros ws. done.
  - exact IH.
  - exact IH.
  - unfold connection. destruct (clients w) eqn:Hc; [exact IH|].
    intros ws [= <-]. exists []. repeat split; [constructor|].
    intros c Hc'. by apply elem_of_nil in Hc'.
  - intros ws. done.
  - by apply callApi_inv.
  - by apply receive_inv.
Qed.

End Invariant.

(** ** Responses *)

Section Responses.

Variable throws : callback -> value -> bool.
Variables (ev : value) (o : promise).

Lemma emit_calls_response rest response w :
  prop "echo" response = Normal ev ->
  settlement response = Normal o ->
  emit throws (map CH rest) (Json response) w = (consume ev o rest w, Normal tt).
Proof.
  intros He Hs. revert w. induction rest as [|c rest IH]; intros w; [done|].
  simpl. unfold bind. rewrite handler_json, He, Hs.
  unfold consume. simpl. unfold consume_one at 2. unfold CH at 2.
  destruct (is_string c.1 ev); apply IH.
Qed.

Lemma consume_one_other_fields w c :
  listeners (consume_one ev o w c) = listeners w /\
  sent (consume_one ev o w c) = sent w /\
  trace (consume_one ev o w c) = trace w /\
  length (promises (consume_one ev o w c)) = length (promises w).
Proof.
  unfold consume_one. destruct (is_string c.1 ev); [|done].
  destruct (settle_other_fields c.2 o (ws_off (CH c) w)) as (-> & _ & -> & -> & ->).
  by destruct (ws_off_other_fields (CH c) w) as (-> & -> & -> & ->).
Qed.

Lemma consume_other_fields rest w :
  listeners (consume ev o rest w) = listeners w /\
  sent (consume ev o rest w) = sent w /\
  trace (consume ev o rest w) = trace w /\
  length (promises (consume ev o rest w)) = length (promises w).
Proof.
  revert w. induction rest as [|c rest IH]; intros w; [done|].
  unfold consume. simpl. fold (consume ev o rest (consume_one ev o w c)).
  destruct (IH (consume_one ev o w c)) as (-> & -> & -> & ->).
  apply consume_one_other_fields.
Qed.

Lemma consume_one_promises w c q :
  promises (consume_one ev o w c) !! q
  = promises (if is_string c.1 ev then settle c.2 o w else w) !! q.
Proof.
  unfold consume_one. destruct (is_string c.1 ev); [|done].
  destruct (ws_off_other_fields (CH c) w) as (_ & _ & Hp & _).
  unfold settle. rewrite Hp.
  destruct (promises w !! c.2) as [[]|]; simpl; by rewrite ?Hp.
Qed.

Lemma settle_same p q w :
  promises w !! q = Some o -> promises (settle p o w) !! q = Some o.
Proof.
  intros Hq. destruct (decide (p = q)) as [->|Hne].
  - unfold settle. rewrite Hq. destruct o; simpl; try done.
    apply list_lookup_insert_eq. by eapply lookup_lt_Some.
  - by rewrite settle_lookup_ne.
Qed.

Lemma consume_keeps rest w q :
  promises w !! q = Some o -> promises (consume ev o rest w) !! q = Some o.
Proof.
  revert w. induction rest as [|c rest IH]; intros w Hq; [done|].
  unfold consume. simpl. apply IH. rewrite consume_one_promises.
  destruct (is_string c.1 ev); [|done]. by apply settle_same.
Qed.

(** A waiting call whose token is the response's gets the settlement. *)
Lemma consume_hit rest w c :
  c ∈ rest -> is_string c.1 ev = true ->
  promises w !! c.2 = Some Pending ->
  promises (consume ev o rest w) !! c.2 = Some o.
Proof.
  revert w. induction rest as [|c0 rest IH]; intros w Hc Hm Hp.
  - by apply elem_of_nil in Hc.
  - unfold consume. simpl. fold (consume ev o rest (consume_one ev o w c0)).
    apply elem_of_cons in Hc as [<-|Hc].
    + apply consume_keeps. rewrite consume_one_promises, Hm. by apply settle_pending.
    + destruct (is_string c0.1 ev) eqn:Hm0.
      * destruct (decide (c0.2 = c.2)) as [Heq|Hne].
        -- apply consume_keeps. rewrite consume_one_promises, Hm0, Heq.
           by apply settle_pending.
        -- apply IH; try done. rewrite consume_one_promises, Hm0.
           by rewrite settle_lookup_ne.
      * apply IH; try done. by rewrite consume_one_promises, Hm0.
Qed.

(** A promise of no answering handler is left alone. *)
Lemma consume_miss rest w q :
  (forall c, c ∈ rest -> c.2 = q -> is_string c.1 ev = false) ->
  promises (consume ev o rest w) !! q = promises w !! q.
Proof.
  revert w. induction rest as [|c rest IH]; intros w H; [done|].
  unfold consume. simpl. fold (consume ev o rest (consume_one ev o w c)).
  rewrite IH by (intros c' Hc'; apply H; by right).
  rewrite consume_one_promises.
  destruct (is_string c.1 ev) eqn:Hm; [|done].
  apply settle_lookup_ne. intros Heq. specialize (H c). rewrite Hm in H.
  discriminate H; [by left|done].
Qed.

Lemma consume_clients rest : forall w calls,
  clients w = Some {| on_message := Dispatcher :: map CH calls |} ->
  NoDup calls.*2 -> NoDup rest -> rest ⊆ calls ->
  clients (consume ev o rest w)
  = Some {| on_message := Dispatcher ::
              map CH (filter (fun c => ~ (c ∈ rest /\ is_string c.1 ev = true)) calls) |}.
Proof.
  induction rest as [|c rest IH]; intros w calls Hw Hnd Hr Hsub.
  - simpl. rewrite Hw. do 3 f_equal. symmetry.
    clear. induction calls as [|x calls IH]; [done|].
    rewrite filter_cons_True; [simpl; by rewrite IH|].
    intros [Hx _]. by apply elem_of_nil in Hx.
  - apply NoDup_cons in Hr as [Hc Hr].
    unfold consume. simpl. fold (consume ev o rest (consume_one ev o w c)).
    unfold consume_one. destruct (is_string c.1 ev) eqn:Hm.
    + rewrite (IH _ (filter (fun x => x <> c) calls)).
      * do 4 f_equal. rewrite list_filter_filter. apply list_filter_iff.
        intros x. rewrite elem_of_cons. split.
        -- intros [Hn Hx] [[->|Hin] Hmx]; [done|]. by apply Hn.
        -- intros Hn. split; [intros [Hin Hmx]; apply Hn; by auto|].
           intros ->. apply Hn. by auto.
      * destruct (settle_other_fields c.2 o (ws_off (CH c) w)) as (_ & -> & _).
        by apply ws_off_call.
      * by apply NoDup_snd_filter.
      * done.
      * intros x Hx. apply list_elem_of_filter. split; [by intros ->|].
        apply Hsub. by right.
    + rewrite (IH _ calls); try done.
      * do 4 f_equal. apply list_filter_iff. intros x. rewrite elem_of_cons. split.
        -- intros Hn [[->|Hin] Hmx]; [congruence|]. by apply Hn.
        -- intros Hn [Hin Hmx]. apply Hn. by auto.
      * intros x Hx. apply Hsub. by right.
Qed.

(** What a response does on a connection whose dispatching handler returns
    normally on it. *)
Lemma receive_response w ws response :
  inv w -> clients w = Some ws ->
  prop "echo" response = Normal ev ->
  settlement response = Normal o ->
  (dispatch throws (listeners w) response).2 = Normal tt ->
  let w' := (receive throws (Json response) w).1 in
  (receive throws (Json response) w).2 = Normal tt /\
  listeners w' = listeners w /\
  sent w' = sent w /\
  trace w' = trace w ++ map (fun l => (l, response)) (dispatch throws (listeners w) response).1 /\
  length (promises w') = length (promises w) /\
  (forall e p, CallHandler e p ∈ on_message ws -> is_string e ev = true ->
     promises w' !! p = Some o) /\
  (forall p, (forall e, CallHandler e p ∈ on_message ws -> is_string e ev = false) ->
     promises w' !! p = promises w !! p) /\
  exists ws', clients w' = Some ws' /\
    forall h, h ∈ on_message ws' <-> h ∈ on_message ws /\ answers ev h = false.
Proof.
  intros Hinv Hws He Hs Hd.
  destruct (Hinv ws Hws) as (calls & Hon & Hnd & Hp).
  unfold receive. rewrite Hws, Hon. simpl. unfold bind.
  rewrite message_handler_json, Hd.
  set (t := map (fun l => (l, response)) (dispatch throws (listeners w) response).1).
  rewrite (emit_calls_response calls response (log t w) He Hs). simpl.
  destruct (consume_other_fields calls (log t w)) as (-> & -> & -> & ->).
  repeat split; try done.
  - intros e p [Hd'|Hin]%elem_of_cons Hm; [discriminate|].
    apply list_elem_of_fmap in Hin as (c & Hc & Hin). unfold CH in Hc.
    injection Hc as -> ->. apply consume_hit; try done. by apply Hp.
  - intros p Hmiss. rewrite consume_miss; [done|].
    intros c Hc <-. apply (Hmiss c.1). right.
    by apply (list_elem_of_fmap_2 CH) in Hc.
  - eexists. split.
    + apply (consume_clients calls (log t w) calls); try done.
      * simpl. rewrite Hws. destruct ws; simpl in *; by subst.
      * by apply NoDup_fmap_1 in Hnd.
    + simpl. intros h. rewrite !elem_of_cons, !list_elem_of_fmap. split.
      * intros [->|(c & -> & [Hn Hc]%list_elem_of_filter)]; [by auto|].
        split; [right; by exists c|]. simpl.
        destruct (is_string c.1 ev); [|done]. exfalso. by apply Hn.
      * intros [[->|(c & -> & Hc)] Ha]; [by left|]. right. exists c. split; [done|].
        apply list_elem_of_filter. split; [|done]. simpl in Ha. intros [_ Hm]. congruence.
Qed.

End Responses.

(** ** The registry *)



Lemma indexOf_None x l : indexOf x l = None -> x ∉ l.
Proof.
  induction l as [|y l IH]; simpl; [intros _; apply not_elem_of_nil|].
  case_decide; [done|]. destruct (indexOf x l); [done|].
  intros _. apply not_elem_of_cons. split; [done|]. by apply IH.
Qed.

Lemma indexOf_Some x l index :
  indexOf x l = Some index ->
  exists pre post, l = pre ++ x :: post /\ (x ∉ pre) /\ delete index l = pre ++ post.
Proof.
  revert index. induction l as [|y l IH]; simpl; intros index; [done|].
  case_decide as Hy.
  - intros [= <-]. subst y. exists [], l. repeat split. apply not_elem_of_nil.
  - destruct (indexOf x l) as [i|] eqn:Hi; [|done]. intros [= <-].
    destruct (IH i eq_refl) as (pre & post & -> & Hpre & Hdel).
    exists (y :: pre), post. simpl. rewrite Hdel. repeat split.
    apply not_elem_of_cons. split; [done|done].
Qed.

Lemma indexOf_first x pre post :
  x ∉ pre ->
  indexOf x (pre ++ x :: post) = Some (length pre) /\
  delete (length pre) (pre ++ x :: post) = pre ++ post.
Proof.
  induction pre as [|y pre IH]; simpl; intros Hx.
  - by rewrite decide_True.
  - apply not_elem_of_cons in Hx as [Hne Hx]. rewrite decide_False by done.
    destruct (IH Hx) as [-> ->]. done.
Qed.

Lemma off_lookup listener key w :
  listeners (off listener w) !! key = listeners w !! key ≫= off_entry listener.
Proof. unfold off. simpl. apply lookup_omap. Qed.



(** ** More on dispatch *)

Section MoreDispatch.

Variable throws : callback -> value -> bool.


Lemma dispatch_stops m event key pre l post :
  type_of event = Normal key ->
  default [] (m !! "*") ++ default [] (m !! key) = pre ++ l :: post ->
  (forall l', l' ∈ pre -> throws l' event = false) ->
  throws l event = true ->
  dispatch throws m event = (pre ++ [l], Throw (Thrown l)).
Proof.
  intros Hk Hsplit Hpre Hl. unfold dispatch.
  apply app_eq_inv in Hsplit as [(k & Hg & Hrest)|(k & Hg & Ht)].
  - destruct k as [|l0 k].
    + rewrite app_nil_r in Hg. simpl in Hrest. rewrite Hg.
      rewrite walk_all by done. simpl. rewrite Hk, <- Hrest.
      simpl. by rewrite Hl.
    + simpl in Hrest. injection Hrest as <- ->. rewrite Hg.
      by rewrite (walk_stops throws pre l k).
  - rewrite walk_all by (intros; apply Hpre; rewrite Hg, elem_of_app; by left).
    simpl. rewrite Hk, Ht.
    rewrite (walk_stops throws k l post); [simpl; by rewrite Hg, app_assoc| |done].
    intros; apply Hpre; rewrite Hg, elem_of_app; by right.
Qed.

End MoreDispatch.

(** ** Calls *)

Lemma is_string_VStr e e' : is_string e (VStr e') = true <-> e' = e.
Proof. simpl. apply String.eqb_eq. Qed.

Lemma is_string_VStr_ne e e' : e' <> e -> is_string e (VStr e') = false.
Proof. simpl. by intros ?%String.eqb_neq. Qed.

Lemma callApi_connected now action params w ws :
  clients w = Some ws ->
  callApi now action params w =
  ({| listeners := listeners w;
      clients := Some {| on_message := on_message ws ++
                           [CallHandler (Date_now_toString now) (length (promises w))] |};
      sent := sent w ++ [{| action := action; params := params;
                            echo := Date_now_toString now |}];
      promises := promises w ++ [Pending];
      trace := trace w |}, length (promises w)).
Proof. intros Hws. unfold callApi. simpl. by rewrite Hws. Qed.

(** On a state that satisfies the invariant a promise belongs to one
    handler only. *)
Lemma handler_of_promise w ws e e' p :
  inv w -> clients w = Some ws ->
  CallHandler e p ∈ on_message ws -> CallHandler e' p ∈ on_message ws -> e = e'.
Proof.
  intros Hinv Hws. destruct (Hinv ws Hws) as (calls & -> & Hnd & _).
  intros [?|(c & Hc & Hin)%list_elem_of_fmap]%elem_of_cons; [done|].
  intros [?|(c' & Hc' & Hin')%list_elem_of_fmap]%elem_of_cons; [done|].
  unfold CH in *. injection Hc as -> Hp. injection Hc' as -> Hp'.
  assert (c = c') as -> by (apply (NoDup_snd_inj calls); congruence). done.
Qed.

(** The promise of a waiting call gets the settlement of a response that
    carries its echo, when the dispatching handler returns normally on it. *)
Lemma answered_call throws w ws e p response o :
  inv w -> clients w = Some ws ->
  CallHandler e p ∈ on_message ws ->
  prop "echo" response = Normal (VStr e) ->
  (message_handler throws (Json response) w).2 = Normal tt ->
  settlement response = Normal o ->
  promises (receive throws (Json response) w).1 !! p = Some o.
Proof.
  intros Hinv Hws Hin He Hd Hs. rewrite message_handler_json in Hd. simpl in Hd.
  destruct (receive_response throws (VStr e) o w ws response Hinv Hws He Hs Hd)
    as (_ & _ & _ & _ & _ & Hhit & _).
  apply (Hhit e p Hin). by apply is_string_VStr.
Qed.

Lemma getEventDetail_obj props :
  getEventDetail (VObj props) =
  Normal (match own "message_type" props with
          | Some v => v
          | None =>
          match own "request_type" props with
          | Some v => v
          | None =>
          match own "notice_type" props with
          | Some v => v
          | None =>
          match own "meta_event_type" props with
          | Some v => v
          | None => VStr ""
          end end end end).
Proof.
  unfold getEventDetail, has_in, prop. simpl.
  destruct (own "message_type" props); simpl; [done|].
  destruct (own "request_type" props); simpl; [done|].
  destruct (own "notice_type" props); simpl; [done|].
  by destruct (own "meta_event_type" props).
Qed.

Lemma reachable_connected throws : reachable throws connected_Server.
Proof. apply reach_connection, reach_new. Qed.




(** * The specification's claims *)

(** ** Claim C1 *)




(** ** Claim C2 *)

(** C2, as stated, fails: listener 1, registered after listener 0, is not
    called when listener 0 throws. *)
Lemma throwing_listener_counterexample :
  let w := register_all [OnAll 0; OnAll 1] connected_Server in
  registered "*" w = [0; 1] /\
  throws_only 0 0 group_message = true /\
  receive (throws_only 0) (Json group_message) w
  = (log [(0, group_message)] w, Throw (Thrown 0)) /\
  (1, group_message) ∉ trace (receive (throws_only 0) (Json group_message) w).1.
Proof.
  repeat split.
  intros Hin. vm_compute in Hin. apply list_elem_of_singleton in Hin. discriminate Hin.
Qed.

(** C2, amended. When a listener throws during dispatch, the listeners before
    it in dispatch order (the wildcard ones, then those of the event's key)
    have been called, it has been called, and no later listener is called for
    that message: the exception leaves the ['message'] handler uncaught, so
    the handlers of pending calls do not see the frame either.  The registry,
    the socket's handlers and the promises are as before. *)
Theorem dispatch_stops_at_throwing_listener throws w ws event key pre l post :
  reachable throws w -> clients w = Some ws ->
  type_of event = Normal key ->
  registered "*" w ++ registered key w = pre ++ l :: post ->
  (forall l', l' ∈ pre -> throws l' event = false) ->
  throws l event = true ->
  receive throws (Json event) w
  = (log (map (fun l' => (l', event)) (pre ++ [l])) w, Throw (Thrown l)).
Proof.
  intros Hr Hws Hk Hsplit Hpre Hl. apply reachable_inv in Hr.
  destruct (Hr ws Hws) as (calls & Hon & _).
  unfold receive. rewrite Hws, Hon. simpl. unfold bind.
  rewrite message_handler_json.
  by rewrite (dispatch_stops throws (listeners w) event key pre l post).
Qed.

(** Three listeners for a group message, the second of which throws. *)
Lemma dispatch_stops_at_throwing_listener_witness :
  receive (throws_only 1) (Json group_message)
    (register_all [OnAll 0; OnAll 1; OnType "message.group" 2] connected_Server)
  = (log [(0, group_message); (1, group_message)]
       (register_all [OnAll 0; OnAll 1; OnType "message.group" 2] connected_Server),
     Throw (Thrown 1)).
Proof.
  apply (dispatch_stops_at_throwing_listener (throws_only 1) _
           {| on_message := [Dispatcher] |} group_message "message.group" [0] 1 [2]).
  - do 3 apply reach_on. apply reachable_connected.
  - reflexivity.
  - reflexivity.
  - reflexivity.
  - intros l' Hl'. apply list_elem_of_singleton in Hl'. subst l'. reflexivity.
  - reflexivity.
Defined.

(** ** Claim C3 *)

(** C3, as stated, fails: a call issued in the millisecond of a pending one
    gets the same echo. *)
Lemma same_millisecond_counterexample :
  let call1 := callApi 1730000000000 "get_login_info" (VObj []) connected_Server in
  let call2 := callApi 1730000000000 "get_status" (VObj []) call1.1 in
  promises call2.1 = [Pending; Pending] /\
  echo <$> sent call2.1 = ["1730000000000"; "1730000000000"] /\
  clients call2.1
  = Some {| on_message := [Dispatcher; CallHandler "1730000000000" 0;
                           CallHandler "1730000000000" 1] |}.
Proof. repeat split. Qed.

(** C3, amended. The echo of a call is the decimal rendering of the clock
    reading (in milliseconds) at which it is issued; so two calls issued at
    different clock readings carry different echoes, in the payload sent and
    in the handler left waiting on the socket. *)
Theorem echo_is_clock_reading w ws w' ws' now now' action action' params params' :
  clients w = Some ws -> clients w' = Some ws' ->
  now <> now' ->
  let call := callApi now action params w in
  let call' := callApi now' action' params' w' in
  let e := Date_now_toString now in
  let e' := Date_now_toString now' in
  e <> e' /\
  last (sent call.1) = Some {| action := action; params := params; echo := e |} /\
  last (sent call'.1) = Some {| action := action'; params := params'; echo := e' |} /\
  clients call.1 = Some {| on_message := on_message ws ++ [CallHandler e call.2] |} /\
  clients call'.1 = Some {| on_message := on_message ws' ++ [CallHandler e' call'.2] |}.
Proof.
  intros Hws Hws' Hne call call' e e'. subst call call' e e'.
  rewrite (callApi_connected now action params w ws Hws).
  rewrite (callApi_connected now' action' params' w' ws' Hws').
  simpl. rewrite !last_snoc. repeat split.
  intros Heq. by apply Hne, Date_now_toString_inj.
Qed.

(** A call in the millisecond after a pending one. *)
Lemma echo_is_clock_reading_witness :
  let call := callApi 1730000000000 "get_login_info" (VObj []) connected_Server in
  let call' := callApi 1730000000001 "get_status" (VObj []) call.1 in
  let e := Date_now_toString 1730000000000 in
  let e' := Date_now_toString 1730000000001 in
  e <> e' /\
  last (sent call.1)
  = Some {| action := "get_login_info"; params := VObj []; echo := e |} /\
  last (sent call'.1)
  = Some {| action := "get_status"; params := VObj []; echo := e' |} /\
  clients call.1 = Some {| on_message := [Dispatcher] ++ [CallHandler e call.2] |} /\
  clients call'.1
  = Some {| on_message := [Dispatcher; CallHandler "1730000000000" 0] ++
                          [CallHandler e' call'.2] |}.
Proof.
  apply (echo_is_clock_reading connected_Server {| on_message := [Dispatcher] |}
           (callApi 1730000000000 "get_login_info" (VObj []) connected_Server).1
           {| on_message := [Dispatcher; CallHandler "1730000000000" 0] |}).
  - reflexivity.
  - reflexivity.
  - lia.
Defined.

(** ** Claim C4 *)

(** C4. A call issued while no client is connected returns a promise that is
    already rejected with the no-connection error, and nothing is sent. *)
Theorem callApi_without_connection now action params w :
  clients w = None ->
  let call := callApi now action params w in
  promises call.1 !! call.2 = Some (Rejected no_clients_message) /\
  sent call.1 = sent w /\
  clients call.1 = None.
Proof.
  intros Hnone. unfold callApi. simpl. rewrite Hnone. simpl.
  unfold reject, settle. simpl.
  rewrite list_lookup_middle by done. simpl.
  repeat split; try done.
  apply list_lookup_insert_eq. rewrite length_app. simpl. lia.
Qed.

(** A call on a server that nobody has connected to. *)
Lemma callApi_without_connection_witness :
  let call := callApi 1730000000000 "get_login_info" (VObj []) new_Server in
  promises call.1 !! call.2 = Some (Rejected "No WebSocket clients connected") /\
  sent call.1 = [] /\
  clients call.1 = None.
Proof. apply (callApi_without_connection _ _ _ new_Server). reflexivity. Defined.

(** ** Claim C5 *)

(** C5, as stated, fails: of two calls issued in the same millisecond, both
    resolve with the data of the response that arrives first, the one meant
    for the second call. *)
Lemma out_of_order_counterexample :
  let call1 := callApi 1730000000000 "get_login_info" (VObj []) connected_Server in
  let call2 := callApi 1730000000000 "get_status" (VObj []) call1.1 in
  let r1 := ok_response "1730000000000" (VStr "first") in
  let r2 := ok_response "1730000000000" (VStr "second") in
  let w' := (receive never_throws (Json r1)
               (receive never_throws (Json r2) call2.1).1).1 in
  promises w' !! call1.2 = Some (Fulfilled (VStr "second")) /\
  promises w' !! call2.2 = Some (Fulfilled (VStr "second")) /\
  promises w' !! call1.2 <> Some (Fulfilled (VStr "first")).
Proof. repeat split. discriminate. Qed.

(** C5, amended. Two calls issued on one connection at different clock
    readings (so with different echoes), whose ["ok"] responses arrive in the
    opposite order and are dispatched without a listener throwing, each
    resolve with the data of the response that carries their own echo. *)
Theorem out_of_order_responses throws w ws now1 now2 action1 action2
    params1 params2 r1 r2 d1 d2 :
  reachable throws w -> clients w = Some ws ->
  now1 <> now2 ->
  let call1 := callApi now1 action1 params1 w in
  let call2 := callApi now2 action2 params2 call1.1 in
  prop "echo" r1 = Normal (VStr (Date_now_toString now1)) ->
  prop "status" r1 = Normal (VStr "ok") ->
  prop "data" r1 = Normal d1 ->
  prop "echo" r2 = Normal (VStr (Date_now_toString now2)) ->
  prop "status" r2 = Normal (VStr "ok") ->
  prop "data" r2 = Normal d2 ->
  (message_handler throws (Json r1) w).2 = Normal tt ->
  (message_handler throws (Json r2) w).2 = Normal tt ->
  let w' := (receive throws (Json r1) (receive throws (Json r2) call2.1).1).1 in
  promises w' !! call1.2 = Some (Fulfilled d1) /\
  promises w' !! call2.2 = Some (Fulfilled d2).
Proof.
  intros Hr Hws Hne call1 call2 He1 Hs1 Hd1 He2 Hs2 Hd2 Hq1 Hq2.
  apply reachable_inv in Hr.
  set (e1 := Date_now_toString now1) in *. set (e2 := Date_now_toString now2) in *.
  assert (Hee : e1 <> e2) by (intros Heq; by apply Hne, Date_now_toString_inj).
  (* the two calls *)
  pose proof (callApi_inv now1 action1 params1 w Hr) as Hinv1. fold call1 in Hinv1.
  pose proof (callApi_inv now2 action2 params2 call1.1 Hinv1) as Hinv2. fold call2 in Hinv2.
  pose proof (callApi_connected now1 action1 params1 w ws Hws) as Hc1. fold call1 e1 in Hc1.
  set (p1 := length (promises w)) in *.
  assert (Hws1 : clients call1.1 = Some {| on_message := on_message ws ++ [CallHandler e1 p1] |})
    by by rewrite Hc1.
  pose proof (callApi_connected now2 action2 params2 call1.1 _ Hws1) as Hc2.
  fold call2 e2 in Hc2. set (p2 := length (promises call1.1)) in *.
  set (ws2 := {| on_message := (on_message ws ++ [CallHandler e1 p1]) ++ [CallHandler e2 p2] |}).
  assert (Hws2 : clients call2.1 = Some ws2) by by rewrite Hc2.
  assert (Hl2 : listeners call2.1 = listeners w) by by rewrite Hc2, Hc1.
  assert (Hin1 : CallHandler e1 p1 ∈ on_message ws2).
  { simpl. apply elem_of_app. left. apply elem_of_app. right. by left. }
  assert (Hin2 : CallHandler e2 p2 ∈ on_message ws2).
  { simpl. apply elem_of_app. right. by left. }
  assert (Hset1 : settlement r1 = Normal (Fulfilled d1))
    by (unfold settlement; rewrite Hs1; simpl; by rewrite Hd1).
  assert (Hset2 : settlement r2 = Normal (Fulfilled d2))
    by (unfold settlement; rewrite Hs2; simpl; by rewrite Hd2).
  replace call1.2 with p1 by by rewrite Hc1.
  replace call2.2 with p2 by by rewrite Hc2.
  (* the response to the second call arrives *)
  assert (Hq2' : (dispatch throws (listeners call2.1) r2).2 = Normal tt).
  { rewrite Hl2. by rewrite message_handler_json in Hq2. }
  destruct (receive_response throws (VStr e2) (Fulfilled d2) call2.1 ws2 r2
              Hinv2 Hws2 He2 Hset2 Hq2')
    as (_ & Hl3 & _ & _ & _ & Hhit3 & Hmiss3 & ws3 & Hws3 & Hmem3).
  pose proof (receive_inv throws (Json r2) call2.1 Hinv2) as Hinv3.
  set (w3 := (receive throws (Json r2) call2.1).1) in *.
  assert (Hp2 : promises w3 !! p2 = Some (Fulfilled d2)).
  { apply (Hhit3 e2 p2 Hin2). by apply is_string_VStr. }
  assert (Hin1' : CallHandler e1 p1 ∈ on_message ws3).
  { apply Hmem3. split; [done|]. simpl. by apply is_string_VStr_ne. }
  (* the response to the first call arrives *)
  assert (Hq1' : (dispatch throws (listeners w3) r1).2 = Normal tt).
  { rewrite Hl3, Hl2. by rewrite message_handler_json in Hq1. }
  destruct (receive_response throws (VStr e1) (Fulfilled d1) w3 ws3 r1
              Hinv3 Hws3 He1 Hset1 Hq1')
    as (_ & _ & _ & _ & _ & Hhit4 & Hmiss4 & _).
  split.
  - apply (Hhit4 e1 p1 Hin1'). by apply is_string_VStr.
  - rewrite Hmiss4; [exact Hp2|].
    intros e [Hin Ha]%Hmem3. exfalso.
    rewrite (handler_of_promise call2.1 ws2 e e2 p2 Hinv2 Hws2 Hin Hin2) in Ha.
    simpl in Ha. by rewrite String.eqb_refl in Ha.
Qed.

(** Two calls seven milliseconds apart, answered in the opposite order. *)
Lemma out_of_order_responses_witness :
  let call1 := callApi 1730000000000 "get_login_info" (VObj []) connected_Server in
  let call2 := callApi 1730000000007 "get_status" (VObj []) call1.1 in
  let r1 := ok_response "1730000000000" login_info in
  let r2 := ok_response "1730000000007" (VObj [("online", VBool true)]) in
  let w' := (receive never_throws (Json r1)
               (receive never_throws (Json r2) call2.1).1).1 in
  promises w' !! call1.2 = Some (Fulfilled login_info) /\
  promises w' !! call2.2 = Some (Fulfilled (VObj [("online", VBool true)])).
Proof.
  apply (out_of_order_responses never_throws connected_Server
           {| on_message := [Dispatcher] |} 1730000000000 1730000000007).
  - apply reachable_connected.
  - reflexivity.
  - lia.
  - reflexivity.
  - reflexivity.
  - reflexivity.
  - reflexivity.
  - reflexivity.
  - reflexivity.
  - reflexivity.
  - reflexivity.
Defined.

(** ** Claim C6 *)

(** C6, as stated, fails: a failed response whose [message] is the empty
    string rejects with the default text, not with the message. *)
Lemma empty_message_counterexample :
  let w := (callApi 1730000000000 "send_group_msg" (VObj []) connected_Server).1 in
  let response := failed_response "1730000000000" (VStr "") in
  clients w = Some {| on_message := [Dispatcher; CallHandler "1730000000000" 0] |} /\
  prop "message" response = Normal (VStr "") /\
  promises (receive never_throws (Json response) w).1 = [Rejected "API call failed"] /\
  promises (receive never_throws (Json response) w).1 !! 0 <> Some (Rejected "").
Proof. repeat split. discriminate. Qed.

(** C6, amended. When a response whose [echo] is that of a pending call
    reaches the handler of the call (the dispatching handler, which runs
    first, returned normally on it): with [status] ["ok"] the promise
    resolves with the response's [data]; with any other [status] it is
    rejected with an error whose text is the response's [message] when that
    is truthy (a non-empty string, for one), and ["API call failed"] when
    [message] is absent or falsy (the empty string, for one). *)
Theorem response_settles_call throws w ws e p response status :
  reachable throws w -> clients w = Some ws ->
  CallHandler e p ∈ on_message ws ->
  prop "echo" response = Normal (VStr e) ->
  (message_handler throws (Json response) w).2 = Normal tt ->
  prop "status" response = Normal status ->
  let w' := (receive throws (Json response) w).1 in
  (is_string "ok" status = true ->
   forall d, prop "data" response = Normal d ->
     promises w' !! p = Some (Fulfilled d)) /\
  (is_string "ok" status = false ->
   forall m, prop "message" response = Normal m ->
     (truthy m = true -> forall text, ToString m = Normal text ->
        promises w' !! p = Some (Rejected text)) /\
     (truthy m = false ->
        promises w' !! p = Some (Rejected call_failed_message))).
Proof.
  intros Hr Hws Hin He Hd Hst w'. apply reachable_inv in Hr.
  pose proof (answered_call throws w ws e p response) as Hsettled.
  split; [intros Hok d Hdata|intros Hok m Hm; split; [intros Ht text Htext|intros Ht]];
    apply Hsettled; try done; unfold settlement; rewrite Hst; simpl; rewrite Hok.
  - by rewrite Hdata.
  - rewrite Hm. simpl. rewrite Ht, Htext. done.
  - rewrite Hm. simpl. rewrite Ht. done.
Qed.

(** A failed response with a message, and no listener registered. *)
Lemma response_settles_call_witness :
  let w := (callApi 1730000000000 "send_group_msg" (VObj []) connected_Server).1 in
  let response := failed_response "1730000000000" (VStr "group not found") in
  promises (receive never_throws (Json response) w).1 !! 0
  = Some (Rejected "group not found").
Proof.
  assert (Hin : CallHandler "1730000000000" 0
                ∈ [Dispatcher; CallHandler "1730000000000" 0]) by (right; left).
  exact (proj1
    (proj2 (response_settles_call never_throws
              (callApi 1730000000000 "send_group_msg" (VObj []) connected_Server).1
              {| on_message := [Dispatcher; CallHandler "1730000000000" 0] |}
              "1730000000000" 0
              (failed_response "1730000000000" (VStr "group not found"))
              (VStr "failed")
              (reach_callApi _ _ _ _ _ (reachable_connected _))
              eq_refl Hin eq_refl eq_refl eq_refl)
       eq_refl (VStr "group not found") eq_refl)
    eq_refl "group not found" eq_refl).
Defined.

(** ** Claim C7 *)




(** ** Claim C8 *)




(** ** Claim C9 *)

(** C9, as stated, fails: a frame that is not valid JSON makes the handler
    raise.  Here on a connection with a listener and a pending call. *)
Lemma malformed_frame_counterexample :
  let w := (callApi 1730000000000 "get_login_info" (VObj [])
              (on (OnAll 0) connected_Server)).1 in
  reachable never_throws w /\
  receive never_throws Malformed w = (w, Throw SyntaxError) /\
  (receive never_throws Malformed w).2 <> Normal tt.
Proof.
  repeat split.
  - apply reach_callApi, reach_on, reach_connection, reach_new.
  - discriminate.
Qed.

(** C9, amended. A frame that is not valid JSON makes the ['message'] handler
    throw the [SyntaxError] of [JSON.parse], which the server does not catch;
    the frame reaches no listener and no handler of a call, and the state of
    the server is left as it was. *)
Theorem malformed_frame_throws throws w ws :
  reachable throws w -> clients w = Some ws ->
  receive throws Malformed w = (w, Throw SyntaxError) /\
  message_handler throws Malformed w = (w, Throw SyntaxError) /\
  forall e p, handler e p Malformed w = (w, Throw SyntaxError).
Proof.
  intros Hr Hws. apply reachable_inv in Hr.
  destruct (Hr ws Hws) as (calls & Hon & _).
  unfold receive. by rewrite Hws, Hon.
Qed.

(** A malformed frame on a fresh connection. *)
Lemma malformed_frame_throws_witness :
  receive never_throws Malformed connected_Server
  = (connected_Server, Throw SyntaxError) /\
  message_handler never_throws Malformed connected_Server
  = (connected_Server, Throw SyntaxError) /\
  forall e p, handler e p Malformed connected_Server
              = (connected_Server, Throw SyntaxError).
Proof.
  apply (malformed_frame_throws never_throws connected_Server
           {| on_message := [Dispatcher] |}).
  - apply reachable_connected.
  - reflexivity.
Defined.

(** ** Claim C10 *)

(** C10. When an event object carries more than one of the four discriminator
    fields, [getEventDetail] returns the one that comes first in the order
    message_type, request_type, notice_type, meta_event_type: a field that is
    present wins over every field after it in that order. *)
Theorem getEventDetail_precedence props before k after v :
  discriminators = before ++ k :: after ->
  (forall k', k' ∈ before -> own k' props = None) ->
  own k props = Some v ->
  getEventDetail (VObj props) = Normal v.
Proof.
  intros Hsplit Hbefore Hk. rewrite getEventDetail_obj. unfold discriminators in Hsplit.
  destruct before as [|b0 [|b1 [|b2 [|b3 before]]]]; simpl in Hsplit.
  - injection Hsplit as <- _. by rewrite Hk.
  - injection Hsplit as <- <- _.
    rewrite (Hbefore "message_type") by set_solver. by rewrite Hk.
  - injection Hsplit as <- <- <- _.
    rewrite (Hbefore "message_type"), (Hbefore "request_type") by set_solver.
    by rewrite Hk.
  - injection Hsplit as <- <- <- <- _.
    rewrite (Hbefore "message_type"), (Hbefore "request_type"),
      (Hbefore "notice_type") by set_solver.
    by rewrite Hk.
  - injection Hsplit as _ _ _ _ Hnil. by destruct before.
Qed.

(** An object with three of the fields: request_type wins. *)
Lemma getEventDetail_precedence_witness :
  getEventDetail
    (VObj [("meta_event_type", VStr "heartbeat"); ("notice_type", VStr "notify");
           ("request_type", VStr "friend")])
  = Normal (VStr "friend").
Proof.
  apply (getEventDetail_precedence _ ["message_type"] "request_type"
           ["notice_type"; "meta_event_type"]).
  - reflexivity.
  - intros k' Hk'. apply list_elem_of_singleton in Hk'. subst k'. reflexivity.
  - reflexivity.
Defined.

(** * Further properties of the code *)

(** ** What a frame leaves alone *)

Lemma settle_settled p q o x w :
  promises w !! q = Some x -> x <> Pending -> promises (settle p o w) !! q = Some x.
Proof.
  intros Hq Hx. destruct (decide (p = q)) as [->|Hne].
  - unfold settle. rewrite Hq. by destruct x.
  - by rewrite settle_lookup_ne.
Qed.

Lemma unchanged_refl w : unchanged_by_frame w w.
Proof. unfold unchanged_by_frame; split_and!; try done. exists []. by rewrite app_nil_r. Qed.

Lemma unchanged_trans w1 w2 w3 :
  unchanged_by_frame w1 w2 -> unchanged_by_frame w2 w3 -> unchanged_by_frame w1 w3.
Proof.
  intros (Hl & Hs & Hn & [t Ht] & Hp) (Hl' & Hs' & Hn' & [t' Ht'] & Hp').
  unfold unchanged_by_frame; split_and!; try congruence.
  - exists (t ++ t'). by rewrite Ht', Ht, app_assoc.
  - intros q x Hq Hx. apply Hp'; [by apply Hp|done].
Qed.

Lemma unchanged_log t w : unchanged_by_frame w (log t w).
Proof. unfold unchanged_by_frame; split_and!; try done. by exists t. Qed.

Lemma unchanged_ws_off h w : unchanged_by_frame w (ws_off h w).
Proof.
  destruct (ws_off_other_fields h w) as (Hl & Hs & Hp & Ht).
  unfold unchanged_by_frame; split_and!; try congruence.
  exists []. by rewrite Ht, app_nil_r.
Qed.

Lemma unchanged_settle p o w : unchanged_by_frame w (settle p o w).
Proof.
  destruct (settle_other_fields p o w) as (Hl & _ & Hs & Ht & Hn).
  unfold unchanged_by_frame; split_and!; try congruence.
  - exists []. by rewrite Ht, app_nil_r.
  - intros q x. apply settle_settled.
Qed.

Section Frames.

Variable throws : callback -> value -> bool.

Lemma unchanged_run_handler h data w :
  unchanged_by_frame w (run_handler throws h data w).1.
Proof.
  destruct h as [|e p]; simpl.
  - destruct (message_handler_logs throws data w) as [t ->]. apply unchanged_log.
  - destruct (handler_cases e p data w) as [->|[->|[o ->]]].
    + apply unchanged_refl.
    + apply unchanged_ws_off.
    + eapply unchanged_trans; [apply unchanged_ws_off|apply unchanged_settle].
Qed.

Lemma unchanged_emit hs data w : unchanged_by_frame w (emit throws hs data w).1.
Proof.
  revert w. induction hs as [|h hs IH]; intros w; [apply unchanged_refl|].
  simpl. unfold bind.
  pose proof (unchanged_run_handler h data w) as Hstep.
  destruct (run_handler throws h data w) as [w1 [[]|x]]; simpl in *; [|done].
  eapply unchanged_trans; [exact Hstep|apply IH].
Qed.

Lemma unchanged_receive data w : unchanged_by_frame w (receive throws data w).1.
Proof.
  unfold receive. destruct (clients w) as [ws|].
  - apply unchanged_emit.
  - apply unchanged_refl.
Qed.

(** X9. Apart from what a called listener does itself, the server's own
    handling of a received frame (the dispatching handler and the handlers of
    calls), whatever the frame and whether or not a listener throws, leaves
    the listener registry and the frames sent as they were, keeps the number
    of promises, only appends to the record of listener calls, and leaves
    every promise that was already settled with its outcome. *)
Theorem frame_leaves_registry_and_sent data w :
  let w' := (receive throws data w).1 in
  listeners w' = listeners w /\
  sent w' = sent w /\
  length (promises w') = length (promises w) /\
  (exists t, trace w' = trace w ++ t) /\
  (forall q x, promises w !! q = Some x -> x <> Pending -> promises w' !! q = Some x).
Proof. apply unchanged_receive. Qed.

End Frames.

(** ** The registry *)

Lemma off_entry_nonempty l arr arr' :
  arr <> [] -> off_entry l arr = Some arr' -> arr' <> [].
Proof.
  intros Hne. unfold off_entry. destruct (indexOf l arr) as [index|].
  - destruct (delete index arr); [done|]. by intros [= <-].
  - by intros [= <-].
Qed.

Lemma callApi_listeners now action params w :
  listeners (callApi now action params w).1 = listeners w.
Proof.
  unfold callApi. simpl. destruct (clients w); simpl; [done|].
  unfold reject. by destruct (settle_other_fields (length (promises w))
    (Rejected no_clients_message) (set_promises (fun ps => ps ++ [Pending]) w)) as (-> & _).
Qed.

(** X1. In every state the server can reach, no key of the listener registry
    holds an empty array: [on] only adds, and [off] deletes the key whose
    array it empties. *)
Theorem registry_has_no_empty_array throws w key arr :
  reachable throws w -> listeners w !! key = Some arr -> arr <> [].
Proof.
  intros Hr. revert key arr.
  induction Hr as [|a w _ IH|l w _ IH|w _ IH|w _ IH|now action params w _ IH|data w _ IH];
    intros key arr Hk.
  - simpl in Hk. by rewrite lookup_empty in Hk.
  - unfold on in Hk. simpl in Hk.
    apply lookup_insert_Some in Hk as [[_ <-]|[_ Hk]]; [|by eapply IH].
    intros Hnil. by apply app_eq_nil in Hnil as [_ ?].
  - rewrite off_lookup in Hk. apply bind_Some in Hk as (arr0 & Hk0 & Hoff).
    eapply off_entry_nonempty; [|exact Hoff]. by eapply IH.
  - unfold connection in Hk. destruct (clients w); by eapply IH.
  - by eapply IH.
  - rewrite callApi_listeners in Hk. by eapply IH.
  - destruct (unchanged_receive throws data w) as (Hl & _).
    rewrite Hl in Hk. by eapply IH.
Qed.

(** A callback registered under two keys, one of which [off] empties. *)
Lemma registry_has_no_empty_array_witness :
  let w := off 0 (register_all [OnAll 0; OnType "message.group" 0;
                                OnType "message.group" 1] connected_Server) in
  listeners w !! "*" = None /\
  listeners w !! "message.group" = Some [1] /\
  [1] <> ([] : list callback).
Proof.
  repeat split.
  apply (registry_has_no_empty_array never_throws
           (off 0 (register_all [OnAll 0; OnType "message.group" 0;
                                 OnType "message.group" 1] connected_Server))
           "message.group").
  - apply reach_off. do 3 apply reach_on. apply reachable_connected.
  - reflexivity.
Defined.

Lemma indexOf_absent x l : x ∉ l -> indexOf x l = None.
Proof.
  induction l as [|y l IH]; simpl; [done|].
  intros [Hne Hl]%not_elem_of_cons. rewrite decide_False by done.
  by rewrite IH.
Qed.

(** X2. Registering a callback that the registry does not hold yet and
    unregistering it again gives back the server as it was: the array of the
    key is as before, and a key created for the callback is deleted again. *)
Theorem on_then_off_restores a w :
  (forall key arr, listeners w !! key = Some arr ->
     (on_callback a ∉ arr) /\ arr <> []) ->
  off (on_callback a) (on a w) = w.
Proof.
  intros Hfresh. destruct w as [m c out ps t]. unfold off, on, set_listeners.
  simpl in *. f_equal. apply map_eq. intros key. rewrite lookup_omap.
  destruct (decide (on_key a = key)) as [<-|Hne].
  - rewrite lookup_insert_eq. simpl. unfold off_entry.
    destruct (m !! on_key a) as [arr|] eqn:Hk; simpl.
    + destruct (Hfresh _ _ Hk) as [Hnot Hnonempty].
      destruct (indexOf_first (on_callback a) arr [] Hnot) as [-> ->].
      rewrite app_nil_r. by destruct arr.
    + by rewrite decide_True.
  - rewrite lookup_insert_ne by done.
    destruct (m !! key) as [arr|] eqn:Hk; simpl; [|done].
    destruct (Hfresh _ _ Hk) as [Hnot _].
    unfold off_entry. by rewrite indexOf_absent.
Qed.

(** Listener 2 comes and goes beside listeners 0 and 1. *)
Lemma on_then_off_restores_witness :
  let w := register_all [OnAll 0; OnType "message.group" 1] connected_Server in
  off 2 (on (OnType "notice.notify" 2) w) = w.
Proof.
  apply (on_then_off_restores (OnType "notice.notify" 2)
           (register_all [OnAll 0; OnType "message.group" 1] connected_Server)).
  intros key arr Hk.
  change (listeners (register_all [OnAll 0; OnType "message.group" 1] connected_Server))
    with (<["message.group" := [1]]> (<["*" := [0]]> (∅ : gmap string (list callback))))
    in Hk.
  apply lookup_insert_Some in Hk as [[_ <-]|[_ Hk]].
  { split; [|done]. simpl. intros Hin. apply list_elem_of_singleton in Hin. discriminate. }
  apply lookup_insert_Some in Hk as [[_ <-]|[_ Hk]].
  { split; [|done]. simpl. intros Hin. apply list_elem_of_singleton in Hin. discriminate. }
  by rewrite lookup_empty in Hk.
Defined.

Lemma occurrences_absent x l : occurrences x l = 0 <-> x ∉ l.
Proof.
  unfold occurrences. split.
  - intros Hlen Hin.
    assert (Hx : x ∈ filter (fun y => y = x) l) by by apply list_elem_of_filter.
    destruct (filter (fun y => y = x) l); [by apply elem_of_nil in Hx|done].
  - intros Hnot. induction l as [|y l IH]; [done|].
    apply not_elem_of_cons in Hnot as [Hne Hl].
    rewrite filter_cons_False by congruence. by apply IH.
Qed.

Lemma occurrences_off_entry x arr arr' :
  off_entry x arr = Some arr' -> occurrences x arr' = pred (occurrences x arr).
Proof.
  unfold off_entry. destruct (indexOf x arr) as [index|] eqn:Hi.
  - destruct (indexOf_Some x arr index Hi) as (pre & post & -> & Hpre & ->).
    intros Harr'.
    assert (arr' = pre ++ post) as -> by (destruct (pre ++ post); congruence).
    unfold occurrences.
    rewrite !filter_app, filter_cons_True, !length_app by done. simpl. lia.
  - intros [= <-]. apply indexOf_None in Hi.
    apply occurrences_absent in Hi. by rewrite Hi.
Qed.

(** X3. A callback that stands at most [n] times under each key is gone from
    every key after [n] calls of [off]: each call takes one occurrence out of
    each array. *)
Theorem off_as_often_as_registered n listener w :
  (forall key arr, listeners w !! key = Some arr -> occurrences listener arr <= n) ->
  forall key arr,
    listeners (Nat.iter n (off listener) w) !! key = Some arr -> listener ∉ arr.
Proof.
  revert w. induction n as [|n IH]; intros w Hocc key arr Hk.
  - simpl in Hk. apply occurrences_absent. specialize (Hocc key arr Hk). lia.
  - rewrite Nat.iter_succ_r in Hk. apply (IH (off listener w)) in Hk; [done|].
    intros key' arr' Hk'. rewrite off_lookup in Hk'.
    apply bind_Some in Hk' as (arr0 & Hk0 & Hoff).
    rewrite (occurrences_off_entry _ _ _ Hoff). specialize (Hocc key' arr0 Hk0). lia.
Qed.

(** A callback registered twice under ["*"] and once under another key. *)
Lemma off_as_often_as_registered_witness :
  let w := register_all [OnAll 0; OnAll 1; OnAll 0; OnType "message.group" 0]
             new_Server in
  registered "*" (off 0 w) = [1; 0] /\
  forall key arr, listeners (off 0 (off 0 w)) !! key = Some arr -> 0 ∉ arr.
Proof.
  split; [reflexivity|].
  apply (off_as_often_as_registered 2 0
           (register_all [OnAll 0; OnAll 1; OnAll 0; OnType "message.group" 0]
              new_Server)).
  intros key arr Hk.
  change (listeners (register_all [OnAll 0; OnAll 1; OnAll 0; OnType "message.group" 0]
                       new_Server))
    with (<["*" := [0; 1; 0]]> (<["message.group" := [0]]>
            (∅ : gmap string (list callback)))) in Hk.
  apply lookup_insert_Some in Hk as [[_ <-]|[_ Hk]]; [vm_compute; lia|].
  apply lookup_insert_Some in Hk as [[_ <-]|[_ Hk]]; [vm_compute; lia|].
  by rewrite lookup_empty in Hk.
Defined.

(** ** The handlers on the socket *)

(** X4. On the accepted socket of every state the server can reach, the
    dispatching handler is registered once and comes first, no handler is
    registered twice, every other handler belongs to a call whose promise is
    still pending, and no two handlers share a promise. *)
Theorem socket_handlers_invariant throws w ws :
  reachable throws w -> clients w = Some ws ->
  head (on_message ws) = Some Dispatcher /\
  NoDup (on_message ws) /\
  (forall e p, CallHandler e p ∈ on_message ws -> promises w !! p = Some Pending) /\
  (forall e e' p, CallHandler e p ∈ on_message ws ->
     CallHandler e' p ∈ on_message ws -> e = e').
Proof.
  intros Hr Hws. apply reachable_inv in Hr.
  destruct (Hr ws Hws) as (calls & Hon & Hnd & Hp).
  split_and!.
  - by rewrite Hon.
  - rewrite Hon. by apply handlers_NoDup.
  - rewrite Hon. intros e p [?|(c & Hc & Hin)%list_elem_of_fmap]%elem_of_cons; [done|].
    unfold CH in Hc. injection Hc as -> ->. by apply Hp.
  - intros e e' p. by apply (handler_of_promise w ws).
Qed.

(** After two calls and the response to the first. *)
Lemma socket_handlers_invariant_witness :
  let w := (receive never_throws (Json (ok_response "1730000000000" login_info))
              (callApi 1730000000007 "get_status" (VObj [])
                 (callApi 1730000000000 "get_login_info" (VObj [])
                    connected_Server).1).1).1 in
  let ws := {| on_message := [Dispatcher; CallHandler "1730000000007" 1] |} in
  clients w = Some ws /\
  head (on_message ws) = Some Dispatcher /\
  NoDup (on_message ws) /\
  (forall e p, CallHandler e p ∈ on_message ws -> promises w !! p = Some Pending) /\
  (forall e e' p, CallHandler e p ∈ on_message ws ->
     CallHandler e' p ∈ on_message ws -> e = e').
Proof.
  split; [reflexivity|].
  apply (socket_handlers_invariant never_throws).
  - apply reach_receive. do 2 apply reach_callApi. apply reachable_connected.
  - reflexivity.
Defined.

(** ** Frames that answer no call *)

Section Unanswered.

Variable throws : callback -> value -> bool.

Lemma emit_unanswered response hs w :
  (forall e h, prop "echo" response = Normal e -> h ∈ hs -> answers e h = false) ->
  exists t, (emit throws hs (Json response) w).1 = log t w.
Proof.
  revert w. induction hs as [|h hs IH]; intros w Hun.
  - exists []. by rewrite log_nil.
  - assert (Hrest : forall e h', prop "echo" response = Normal e ->
                      h' ∈ hs -> answers e h' = false).
    { intros e h' He Hin. apply (Hun e h' He). by right. }
    simpl. unfold bind. destruct h as [|e0 p]; simpl.
    + rewrite message_handler_json.
      destruct (dispatch throws (listeners w) response) as [called [[]|x]]; simpl;
        [|eauto].
      destruct (IH (log (map (fun l => (l, response)) called) w) Hrest) as [t ->].
      rewrite log_log. eauto.
    + rewrite handler_json.
      destruct (prop "echo" response) as [e|x] eqn:He; simpl.
      * assert (Hno : is_string e0 e = false) by (apply (Hun e (CallHandler e0 p) eq_refl); by left).
        rewrite Hno. simpl. by apply IH.
      * exists []. by rewrite log_nil.
Qed.

(** X5. A frame whose [echo] is that of no handler waiting on the socket (an
    event, which has none, or a response nobody waits for) has no effect but
    the listener calls it causes: no promise is settled, no handler leaves
    the socket, nothing is sent, whether or not a listener throws. *)
Theorem unanswered_frame_only_calls_listeners response w :
  (forall ws e h, clients w = Some ws -> prop "echo" response = Normal e ->
     h ∈ on_message ws -> answers e h = false) ->
  exists t, (receive throws (Json response) w).1 = log t w.
Proof.
  intros Hun. unfold receive. destruct (clients w) as [ws|] eqn:Hws.
  - apply emit_unanswered. intros e h. by apply (Hun ws).
  - exists []. by rewrite log_nil.
Qed.

(** X6. A response is taken once: when a response has settled the calls that
    waited for its [echo], the same response arriving again settles nothing
    and removes no handler; it only reaches the listeners again. *)
Theorem repeated_response_settles_nothing w ws response e o :
  reachable throws w -> clients w = Some ws ->
  prop "echo" response = Normal e ->
  settlement response = Normal o ->
  (message_handler throws (Json response) w).2 = Normal tt ->
  let w1 := (receive throws (Json response) w).1 in
  exists t, (receive throws (Json response) w1).1 = log t w1.
Proof.
  intros Hr Hws He Hs Hd w1. apply reachable_inv in Hr.
  rewrite message_handler_json in Hd. simpl in Hd.
  destruct (receive_response throws e o w ws response Hr Hws He Hs Hd)
    as (_ & _ & _ & _ & _ & _ & _ & ws1 & Hws1 & Hmem).
  fold w1 in Hws1. unfold receive. rewrite Hws1.
  apply emit_unanswered. intros e' h He' Hin.
  rewrite He in He'. injection He' as <-. by apply Hmem in Hin as [_ ?].
Qed.

End Unanswered.

(** A group message while a call is pending. *)
Lemma unanswered_frame_only_calls_listeners_witness :
  let w := (callApi 1730000000000 "get_login_info" (VObj [])
              (on (OnAll 0) connected_Server)).1 in
  exists t, (receive never_throws (Json group_message) w).1 = log t w.
Proof.
  apply (unanswered_frame_only_calls_listeners never_throws group_message
           (callApi 1730000000000 "get_login_info" (VObj [])
              (on (OnAll 0) connected_Server)).1).
  intros ws e h Hws He Hin.
  injection Hws as <-. injection He as <-.
  simpl in Hin. apply elem_of_cons in Hin as [->|Hin]; [reflexivity|].
  apply list_elem_of_singleton in Hin as ->. reflexivity.
Defined.

(** The response to a pending call, received twice. *)
Lemma repeated_response_settles_nothing_witness :
  let w := (callApi 1730000000000 "get_login_info" (VObj []) connected_Server).1 in
  let response := ok_response "1730000000000" login_info in
  let w1 := (receive never_throws (Json response) w).1 in
  promises w1 = [Fulfilled login_info] /\
  exists t, (receive never_throws (Json response) w1).1 = log t w1.
Proof.
  split; [reflexivity|].
  apply (repeated_response_settles_nothing never_throws
           (callApi 1730000000000 "get_login_info" (VObj []) connected_Server).1
           {| on_message := [Dispatcher; CallHandler "1730000000000" 0] |}
           (ok_response "1730000000000" login_info)
           (VStr "1730000000000") (Fulfilled login_info)).
  - apply reach_callApi, reachable_connected.
  - reflexivity.
  - reflexivity.
  - reflexivity.
  - reflexivity.
Defined.

(** ** Calls that lost their handler *)

Lemma remove_first_within h x l : x ∈ remove_first h l -> x ∈ l.
Proof.
  induction l as [|y l IH]; simpl; [done|].
  case_decide; rewrite ?elem_of_cons; [by right|].
  intros [->|Hin]; [by left|right; by apply IH].
Qed.

Lemma remove_last_within h x l : x ∈ remove_last h l -> x ∈ l.
Proof.
  unfold remove_last. rewrite elem_of_reverse.
  intros Hin%remove_first_within. by apply elem_of_reverse.
Qed.

Lemma orphan_same p w w' :
  promises w' !! p = promises w !! p -> clients w' = clients w ->
  orphan p w -> orphan p w'.
Proof. intros Hp Hc [Hpen Hno]. split; [by rewrite Hp|]. by rewrite Hc. Qed.

Lemma orphan_ws_off p h w : orphan p w -> orphan p (ws_off h w).
Proof.
  intros [Hpen Hno]. destruct (ws_off_other_fields h w) as (_ & _ & Hp & _).
  split; [by rewrite Hp|].
  unfold ws_off. destruct (clients w) as [ws|] eqn:Hws; simpl; [|by rewrite Hws].
  intros ws' e [= <-]. simpl. intros Hin%remove_last_within. by apply (Hno ws e).
Qed.

Lemma orphan_settle p q o w : q <> p -> orphan p w -> orphan p (settle q o w).
Proof.
  intros Hne. apply orphan_same; [by apply settle_lookup_ne|].
  by destruct (settle_other_fields q o w) as (_ & -> & _).
Qed.

Lemma orphan_callApi p now action params w :
  orphan p w -> orphan p (callApi now action params w).1.
Proof.
  intros [Hpen Hno]. pose proof (lookup_lt_Some _ _ _ Hpen) as Hlt.
  destruct (clients w) as [ws|] eqn:Hws.
  - rewrite (callApi_connected now action params w ws Hws). split; simpl.
    + by rewrite lookup_app_l.
    + intros ws' e [= <-]. simpl.
      intros [Hin|Hin%list_elem_of_singleton]%elem_of_app; [by apply (Hno ws e)|].
      injection Hin as _ Hp. lia.
  - unfold callApi. simpl. rewrite Hws. simpl. unfold reject.
    apply orphan_settle; [lia|]. split; simpl; [by rewrite lookup_app_l|].
    by rewrite Hws.
Qed.

Section Orphans.

Variable throws : callback -> value -> bool.

Lemma orphan_emit p hs data w :
  (forall e, CallHandler e p ∉ hs) -> orphan p w -> orphan p (emit throws hs data w).1.
Proof.
  revert w. induction hs as [|h hs IH]; intros w Hhs Horph; [done|].
  assert (Hrest : forall e, CallHandler e p ∉ hs).
  { intros e Hin. apply (Hhs e). by right. }
  assert (Hstep : orphan p (run_handler throws h data w).1).
  { destruct h as [|e q]; simpl.
    - destruct (message_handler_logs throws data w) as [t ->].
      by apply (orphan_same p w).
    - assert (Hq : q <> p) by (intros ->; apply (Hhs e); by left).
      destruct (handler_cases e q data w) as [->|[->|[o ->]]].
      + done.
      + by apply orphan_ws_off.
      + by apply orphan_settle, orphan_ws_off. }
  simpl. unfold bind.
  destruct (run_handler throws h data w) as [w1 [[]|x]]; simpl in *; [|done].
  by apply IH.
Qed.

Lemma orphan_evolves p w0 w : orphan p w0 -> evolves throws w0 w -> orphan p w.
Proof.
  intros Horph.
  induction 1 as [|a w _ IH|l w _ IH|w _ IH|w _ IH|now action params w _ IH|data w _ IH].
  - done.
  - by apply (orphan_same p w).
  - by apply (orphan_same p w).
  - unfold connection. destruct (clients w) eqn:Hc; [done|].
    destruct IH as [Hpen _]. split; [done|]. simpl.
    intros ws e [= <-]. simpl. intros Hin%list_elem_of_singleton. discriminate.
  - destruct IH as [Hpen _]. split; [done|]. simpl. by intros ws e.
  - by apply orphan_callApi.
  - unfold receive. destruct (clients w) as [ws|] eqn:Hws; [|done].
    apply orphan_emit; [|done]. intros e. destruct IH as [_ Hno]. by apply (Hno ws).
Qed.

(** X7. A pending call whose handler is on no socket is never settled: when
    the socket closes before the response (or the handler left without
    settling), the promise stays pending through every later registration,
    connection, call and frame, the late response included. *)
Theorem orphaned_call_stays_pending p w0 w :
  promises w0 !! p = Some Pending ->
  (forall ws e, clients w0 = Some ws -> CallHandler e p ∉ on_message ws) ->
  evolves throws w0 w ->
  promises w !! p = Some Pending.
Proof.
  intros Hpen Hno Hev.
  by destruct (orphan_evolves p w0 w (conj Hpen Hno) Hev) as [? _].
Qed.

End Orphans.

(** A call is issued, the socket closes, the client comes back and sends the
    response. *)
Lemma orphaned_call_stays_pending_witness :
  let w0 := close (callApi 1730000000000 "get_login_info" (VObj [])
                     connected_Server).1 in
  let w := (receive never_throws (Json (ok_response "1730000000000" login_info))
              (connection w0)).1 in
  promises w0 !! 0 = Some Pending /\
  clients w = Some {| on_message := [Dispatcher] |} /\
  promises w !! 0 = Some Pending.
Proof.
  split; [reflexivity|]. split; [reflexivity|].
  apply (orphaned_call_stays_pending never_throws 0
           (close (callApi 1730000000000 "get_login_info" (VObj [])
                     connected_Server).1)).
  - reflexivity.
  - intros ws e Hws. discriminate Hws.
  - apply evolves_receive, evolves_connection, evolves_here.
Defined.

(** ** Frames that are not objects *)

Lemma type_of_non_object event :
  is_object event = false -> type_of event = Throw TypeError.
Proof. destruct event as [| |b|repr|str|items|props]; try done; by destruct b. Qed.

(** X8. A frame that parses to [null], a boolean, a number or a string is
    handed to the wildcard listeners, and then the dispatching handler throws
    a [TypeError] while computing the key: no listener of a key is called. *)
Theorem non_object_frame_throws throws w event :
  is_object event = false ->
  (forall l, l ∈ registered "*" w -> throws l event = false) ->
  message_handler throws (Json event) w
  = (log (map (fun l => (l, event)) (registered "*" w)) w, Throw TypeError).
Proof.
  intros Hobj Hquiet. rewrite message_handler_json. unfold dispatch.
  fold (registered "*" w). rewrite walk_all by done. simpl.
  by rewrite type_of_non_object.
Qed.

(** The frame [null] with one wildcard listener and one under a key. *)
Lemma non_object_frame_throws_witness :
  let w := register_all [OnAll 0; OnType "undefined." 1; OnType "null." 2]
             connected_Server in
  message_handler never_throws (Json VNull) w = (log [(0, VNull)] w, Throw TypeError).
Proof.
  exact (non_object_frame_throws never_throws
           (register_all [OnAll 0; OnType "undefined." 1; OnType "null." 2]
              connected_Server) VNull eq_refl (fun _ _ => eq_refl)).
Defined.

(** ** Named calls *)

(** X10. [sendMsg] on a connected server sends one [send_msg] request whose
    target is under [user_id] when the message type is ["private"] and under
    [group_id] for every other message type, never under both. *)
Theorem sendMsg_target_key now messageType id message autoEscape w ws :
  clients w = Some ws ->
  exists ps,
    sent (sendMsg now messageType id message autoEscape w).1
    = sent w ++ [{| action := "send_msg"; params := VObj ps;
                    echo := Date_now_toString now |}] /\
    own "message_type" ps = Some (VStr messageType) /\
    (messageType = "private" ->
       own "user_id" ps = Some id /\ own "group_id" ps = None) /\
    (messageType <> "private" ->
       own "group_id" ps = Some id /\ own "user_id" ps = None).
Proof.
  intros Hws. unfold sendMsg. rewrite (callApi_connected _ _ _ w ws Hws). simpl.
  eexists. split; [reflexivity|]. split; [reflexivity|]. split.
  - intros ->. done.
  - intros Hne%String.eqb_neq. simpl. by rewrite Hne.
Qed.

(** A message to a group. *)
Lemma sendMsg_target_key_witness :
  exists ps,
    sent (sendMsg 1730000000000 "group" (VNum "42") (VStr "hello") VUndefined
            connected_Server).1
    = sent connected_Server ++
      [{| action := "send_msg"; params := VObj ps; echo := Date_now_toString 1730000000000 |}] /\
    own "message_type" ps = Some (VStr "group") /\
    ("group" = "private" ->
       own "user_id" ps = Some (VNum "42") /\ own "group_id" ps = None) /\
    ("group" <> "private" ->
       own "group_id" ps = Some (VNum "42") /\ own "user_id" ps = None).
Proof.
  apply (sendMsg_target_key 1730000000000 "group" (VNum "42") (VStr "hello") VUndefined
           connected_Server {| on_message := [Dispatcher] |}).
  reflexivity.
Defined.

(** X11. [setGroupBan] on a connected server issues one [set_group_ban]
    call whose parameter object, as it is handed to [JSON.stringify], holds
    under [duration] the value given when that is neither [undefined] nor
    [null] (zero is kept), and 1800 only when it is [undefined] or [null]. *)
Theorem setGroupBan_duration now groupId userId duration w ws :
  clients w = Some ws ->
  exists ps,
    sent (setGroupBan now groupId userId duration w).1
    = sent w ++ [{| action := "set_group_ban"; params := VObj ps;
                    echo := Date_now_toString now |}] /\
    own "group_id" ps = Some groupId /\
    own "user_id" ps = Some userId /\
    (nullish duration = false -> own "duration" ps = Some duration) /\
    (nullish duration = true -> own "duration" ps = Some (VNum "1800")).
Proof.
  intros Hws. unfold setGroupBan. rewrite (callApi_connected _ _ _ w ws Hws). simpl.
  eexists. split; [reflexivity|]. simpl. unfold coalesce.
  split_and!; try done; by intros ->.
Qed.

(** Lifting a ban: a duration of zero. *)
Lemma setGroupBan_duration_witness :
  exists ps,
    sent (setGroupBan 1730000000000 (VNum "42") (VNum "10001") (VNum "0")
            connected_Server).1
    = sent connected_Server ++
      [{| action := "set_group_ban"; params := VObj ps;
          echo := Date_now_toString 1730000000000 |}] /\
    own "group_id" ps = Some (VNum "42") /\
    own "user_id" ps = Some (VNum "10001") /\
    (nullish (VNum "0") = false -> own "duration" ps = Some (VNum "0")) /\
    (nullish (VNum "0") = true -> own "duration" ps = Some (VNum "1800")).
Proof.
  apply (setGroupBan_duration 1730000000000 (VNum "42") (VNum "10001") (VNum "0")
           connected_Server {| on_message := [Dispatcher] |}).
  reflexivity.
Defined.

(** ** The listener calls of one frame *)

Section OneFrame.

Variable throws : callback -> value -> bool.





End OneFrame.

